(** * MetadataVersioned: the versioned runtime metadata and its upgrade cache

    A shallow embedding of [packages/types/src/metadata/MetadataVersioned.ts].

    The class wraps a tagged union (magic number + metadata at one of the known
    versions) and exposes one getter per known version plus [asLatest].  A
    getter for a version above the wrapped one upgrades the value one version
    at a time with the imported functions [toV10] .. [toV15] and [toLatest],
    and memoises every intermediate result in the private map [#converted].

    The object is modelled by explicit state passing: a method is a function
    from the object's state to a result (a value or a thrown exception) and
    the object's new state.  An object is represented by its value, so that
    "the same object" reads "the entry held by [#converted]".  The imported
    upgrade functions are taken as total functions of their three
    arguments.  In the first part they are run for their result alone; the
    part on live objects ([Live]) also follows what they leave of the values
    the record holds, which is what [toJSON] then serialises. *)

From stdpp Require Import base gmap strings pretty list.

Open Scope Z_scope.

#[local] Set Warnings "-clear-no-such-hyp".

(** ** Constants and the template-key types *)

(** [const KNOWN_VERSIONS = [15, 14, 13, 12, 11, 10, 9] as const] *)
Definition KNOWN_VERSIONS : list Z := [15; 14; 13; 12; 11; 10; 9].

(** [const LATEST_VERSION = KNOWN_VERSIONS[0]] *)
Definition LATEST_VERSION : Z := Eval cbv in default 0 (head KNOWN_VERSIONS).

(** [const TO_CALLS_VERSION = 14; // LATEST_VERSION] *)
Definition TO_CALLS_VERSION : Z := 14.

(** [type MetaAsX = `asV${MetaAll}`]: the name of a version getter. *)
Inductive MetaAsX := asV (version : Z).

(** [type MetaVersions = Exclude<MetaAll, 9> | 'latest']: a key of
    [#converted]. *)
Inductive MetaVersions := Ver (version : Z) | latest.

#[global] Instance MetaVersions_eq_dec : EqDecision MetaVersions.
Proof. solve_decision. Defined.

#[global] Instance MetaVersions_countable : Countable MetaVersions.
Proof.
  refine (inj_countable'
            (fun k => match k with Ver v => Some v | latest => None end)
            (fun o => match o with Some v => Ver v | None => latest end) _).
  by intros [].
Defined.

(** ** Exceptions *)

Inductive Exn :=
  | Error (message : string)
      (** [throw new Error(message)] *)
  | EnumAccess (index : Z) (via : MetaAsX)
      (** the tagged union does not hold, or does not have, the variant asked
          for *)
  | UndefinedValue
      (** JavaScript would hand back [undefined] here (a missing property, a
          missing map entry); see [getter_defined] for why it never occurs *)
  | UnresolvedTypeError (identifier : string)
      (** raised by the unique-type extraction in strict mode *).

(** [`Cannot convert metadata from version ${this.version} to ${version}`] *)
Definition cannotConvert (thisVersion version : Z) : string :=
  "Cannot convert metadata from version " +:+ pretty thisVersion
    +:+ " to " +:+ pretty version.

(** ** Type references (for the unique-type extraction) *)

(** Modelled from the spec: [util/getUniqTypes] is not under src/.  The spec
    speaks of a "type-reference graph" walked "recursively through composite
    and generic type expressions": a type reference is an identifier together
    with the type expressions it is built from. *)
#[local] Unset Elimination Schemes.
Inductive TypeRef := TypeExpr (identifier : string) (inner : list TypeRef).
#[local] Set Elimination Schemes.

(** ** The wrapped tagged union *)

(** Modelled from the spec: the [MetadataAll] interface is not under src/.
    "payload: a tagged union over all known schema versions; the active tag
    is the record's intrinsic version".  [T] is the type of the decoded
    values. *)
Inductive MetadataAll {T : Type} :=
  | V9 (value : T)
  | V10 (value : T)
  | V11 (value : T)
  | V12 (value : T)
  | V13 (value : T)
  | V14 (value : T)
  | V15 (value : T).
Arguments MetadataAll : clear implicits.

(** [.index] *)
Definition index {T} (e : MetadataAll T) : Z :=
  match e with
  | V9 _ => 9 | V10 _ => 10 | V11 _ => 11 | V12 _ => 12
  | V13 _ => 13 | V14 _ => 14 | V15 _ => 15
  end.

(** [.value] *)
Definition value {T} (e : MetadataAll T) : T :=
  match e with
  | V9 x | V10 x | V11 x | V12 x | V13 x | V14 x | V15 x => x
  end.

(** ** What the class imports *)

(** None of these is part of the class: the registry, the decoded types, the
    upgrade functions (one per pair of adjacent versions, and [toLatest]) and
    the two utilities. *)
Class Imports := {
  Registry : Type;     (* '../types/index.js' *)
  MagicNumber : Type;  (* './MagicNumber.js' *)
  MetaMapped : Type;   (* [MetadataAll[MetaAsX]]: a decoded MetadataV9 .. MetadataV15 *)
  AnyJson : Type;      (* '@polkadot/types-codec/types' *)
  (* [(registry: Registry, input: F, metaVersion: number) => T] *)
  toV10 : Registry -> MetaMapped -> Z -> MetaMapped;
  toV11 : Registry -> MetaMapped -> Z -> MetaMapped;
  toV12 : Registry -> MetaMapped -> Z -> MetaMapped;
  toV13 : Registry -> MetaMapped -> Z -> MetaMapped;
  toV14 : Registry -> MetaMapped -> Z -> MetaMapped;
  toV15 : Registry -> MetaMapped -> Z -> MetaMapped;
  toLatest : Registry -> MetaMapped -> Z -> MetaMapped;
  (* [toCallsOnly(registry, latest)] from './util/index.js' *)
  toCallsOnly : Registry -> MetaMapped -> MetaMapped;
  (* [Struct.prototype.toJSON], which serialises the two fields of the struct *)
  Struct_toJSON : MagicNumber -> MetadataAll MetaMapped -> AnyJson;
  (* what the unique-type extraction reads: the type references a
     representation mentions, and whether the registry resolves an
     identifier *)
  typeRefs : MetaMapped -> list TypeRef;
  hasType : Registry -> string -> bool
}.

Section MetadataVersioned.

Context {imports : Imports}.

Definition UpgradeStep : Type := Registry -> MetaMapped -> Z -> MetaMapped.

(** [e[asX]]: the variant getter, which refuses any variant but the active
    one. *)
Definition enumAs (e : MetadataAll MetaMapped) (asX : MetaAsX)
    : Exn + MetaMapped :=
  let 'asV n := asX in
  if index e =? n then inr (value e) else inl (EnumAccess (index e) asX).

(** [registry.createTypeUnsafe('MetadataAll', [value, index])] *)
Definition createMetadataAll (x : MetaMapped) (idx : Z)
    : Exn + MetadataAll MetaMapped :=
  match idx with
  | 9 => inr (V9 x) | 10 => inr (V10 x) | 11 => inr (V11 x)
  | 12 => inr (V12 x) | 13 => inr (V13 x) | 14 => inr (V14 x)
  | 15 => inr (V15 x)
  | _ => inl (EnumAccess idx (asV idx))
  end.

(** ** The object *)

(** One call of an upgrade function: the cache key it was made for and the
    arguments it was given.  The field [upgradeCalls] below is
    instrumentation: it is written whenever [fromPrev] is called and never
    read by the code. *)
Record UpgradeCall := {
  call_key : MetaVersions;
  call_registry : Registry;
  call_input : MetaMapped;
  call_metaVersion : Z
}.

Record MetadataVersioned := {
  registry : Registry;                      (* Codec.registry *)
  field_magicNumber : MagicNumber;          (* Struct field 'magicNumber' *)
  field_metadata : MetadataAll MetaMapped;  (* Struct field 'metadata' *)
  converted : gmap MetaVersions MetaMapped; (* #converted *)
  upgradeCalls : list UpgradeCall
}.

(** [constructor (registry, value)], with [value] already decoded into its
    two fields: [#converted] starts as a new, empty map. *)
Definition new_MetadataVersioned (reg : Registry) (magic : MagicNumber)
    (md : MetadataAll MetaMapped) : MetadataVersioned :=
  {| registry := reg; field_magicNumber := magic; field_metadata := md;
     converted := ∅; upgradeCalls := [] |}.

(** ** Methods: state and exceptions *)

Definition M (A : Type) : Type :=
  MetadataVersioned -> (Exn + A) * MetadataVersioned.

Definition ret {A} (a : A) : M A := fun this => (inr a, this).

Definition throw {A} (e : Exn) : M A := fun this => (inl e, this).

Definition bind {A B} (c : M A) (k : A -> M B) : M B :=
  fun this =>
    match c this with
    | (inr a, this') => k a this'
    | (inl e, this') => (inl e, this')
    end.

Definition lift {A} (r : Exn + A) : M A := fun this => (r, this).

Notation "'let*' x ':=' c 'in' k" := (bind c (fun x => k))
  (at level 10, x pattern, c at level 100, k at level 200, only parsing).

(** [this.registry] *)
Definition get_registry : M Registry := fun this => (inr (registry this), this).

(** [#metadata = (): MetadataAll => this.getT('metadata')] *)
Definition metadata : M (MetadataAll MetaMapped) :=
  fun this => (inr (field_metadata this), this).

(** [get magicNumber (): MagicNumber { return this.getT('magicNumber') }] *)
Definition magicNumber : M MagicNumber :=
  fun this => (inr (field_magicNumber this), this).

(** [get version (): number { return this.#metadata().index }] *)
Definition version : M Z :=
  let* md := metadata in ret (index md).

(** [this.#converted.has(key)], [.set(key, x)], [.get(key)] *)
Definition converted_has (key : MetaVersions) : M bool :=
  fun this => (inr (bool_decide (is_Some (converted this !! key))), this).

Definition converted_set (key : MetaVersions) (x : MetaMapped) : M unit :=
  fun this =>
    (inr tt,
     {| registry := registry this;
        field_magicNumber := field_magicNumber this;
        field_metadata := field_metadata this;
        converted := <[key := x]> (converted this);
        upgradeCalls := upgradeCalls this |}).

Definition converted_get (key : MetaVersions) : M MetaMapped :=
  fun this =>
    match converted this !! key with
    | Some x => (inr x, this)
    | None => (inl UndefinedValue, this)
    end.

(** [fromPrev(registry, input, metaVersion)], recorded in [upgradeCalls]. *)
Definition call (fromPrev : UpgradeStep) (key : MetaVersions)
    (reg : Registry) (input : MetaMapped) (metaVersion : Z) : M MetaMapped :=
  fun this =>
    (inr (fromPrev reg input metaVersion),
     {| registry := registry this;
        field_magicNumber := field_magicNumber this;
        field_metadata := field_metadata this;
        converted := converted this;
        upgradeCalls :=
          upgradeCalls this ++
            [{| call_key := key; call_registry := reg; call_input := input;
                call_metaVersion := metaVersion |}] |}).

(** [#assertVersion] *)
Definition assertVersion (v : Z) : M bool :=
  let* thisVersion := version in
  if thisVersion >? v
  then throw (Error (cannotConvert thisVersion v))
  else ret (thisVersion =? v).

(** [#getVersion].  [this_] is the object's own getter table, through which
    [this[asPrev]] is resolved. *)
Definition getVersion (this_ : MetaAsX -> M MetaMapped)
    (v : MetaVersions) (fromPrev : UpgradeStep) : M MetaMapped :=
  let* isCurr := match v with
                 | latest => ret false
                 | Ver n => assertVersion n
                 end in
  match v, isCurr with
  | Ver n, true =>
      let asCurr := asV n in
      let* md := metadata in
      lift (enumAs md asCurr)
  | _, _ =>
      let* has := converted_has v in
      let* _ :=
        if negb has
        then
          let asPrev := match v with
                        | latest => asV LATEST_VERSION
                        | Ver n => asV (n - 1)
                        end in
          let* reg := get_registry in
          let* prev := this_ asPrev in
          let* thisVersion := version in
          let* out := call fromPrev v reg prev thisVersion in
          converted_set v out
        else ret tt in
      converted_get v
  end.

(** *** The getters

    A getter for version [n] only ever reads the getter for [n - 1], so
    each one is given the part of [this] it can reach; [this_] below is the
    whole table, and [getter_unfold] shows that every getter is the source's
    one-liner over it. *)
Definition absent : M MetaMapped := throw UndefinedValue.

Definition only (n : Z) (getter : M MetaMapped) : MetaAsX -> M MetaMapped :=
  fun '(asV k) => if k =? n then getter else absent.

Definition asV9 : M MetaMapped :=
  let* _ := assertVersion 9 in
  let* md := metadata in
  lift (enumAs md (asV 9)).

Definition asV10 : M MetaMapped := getVersion (only 9 asV9) (Ver 10) toV10.
Definition asV11 : M MetaMapped := getVersion (only 10 asV10) (Ver 11) toV11.
Definition asV12 : M MetaMapped := getVersion (only 11 asV11) (Ver 12) toV12.
Definition asV13 : M MetaMapped := getVersion (only 12 asV12) (Ver 13) toV13.
Definition asV14 : M MetaMapped := getVersion (only 13 asV13) (Ver 14) toV14.
Definition asV15 : M MetaMapped := getVersion (only 14 asV14) (Ver 15) toV15.

Definition asLatest : M MetaMapped :=
  getVersion (only 15 asV15) latest toLatest.

(** [this[name]] for a getter name. *)
Definition this_ : MetaAsX -> M MetaMapped :=
  fun '(asV n) =>
    match n with
    | 9 => asV9 | 10 => asV10 | 11 => asV11 | 12 => asV12
    | 13 => asV13 | 14 => asV14 | 15 => asV15
    | _ => absent
    end.

(** [get asCallsOnly] *)
Definition asCallsOnly : M MetadataVersioned :=
  let* reg := get_registry in
  let* magic := magicNumber in
  let* latestMeta := asLatest in
  let* md :=
    lift (createMetadataAll (toCallsOnly reg latestMeta) TO_CALLS_VERSION) in
  ret (new_MetadataVersioned reg magic md).

(** [toJSON]: [this.asLatest; return super.toJSON()] *)
Definition super_toJSON : M AnyJson :=
  fun this =>
    (inr (Struct_toJSON (field_magicNumber this) (field_metadata this)),
     this).

Definition toJSON : M AnyJson :=
  let* _ := asLatest in
  super_toJSON.

(** *** The unique-type extraction *)

(** Modelled from the spec: [util/getUniqTypes] is not under src/.  It walks
    the type references "recursively through composite and generic type
    expressions" and collects "the set of distinct type identifiers
    encountered".  An identifier the registry cannot resolve makes the walk
    fail with [UnresolvedTypeError], "carrying the unresolved identifier",
    when [throwOnUnresolved] is set; otherwise "the identifier is still
    included in the result set ... and traversal continues". *)
Fixpoint collectTypes (reg : Registry) (throwOnUnresolved : bool)
    (t : TypeRef) (seen : gset string) : Exn + gset string :=
  match t with
  | TypeExpr id inner =>
      if throwOnUnresolved && negb (hasType reg id)
      then inl (UnresolvedTypeError id)
      else
        (fix collectAll (ts : list TypeRef) (seen : gset string) :=
           match ts with
           | [] => inr seen
           | t' :: ts' =>
               match collectTypes reg throwOnUnresolved t' seen with
               | inl e => inl e
               | inr seen' => collectAll ts' seen'
               end
           end) inner ({[ id ]} ∪ seen)
  end.

Fixpoint collectAllTypes (reg : Registry) (throwOnUnresolved : bool)
    (ts : list TypeRef) (seen : gset string) : Exn + gset string :=
  match ts with
  | [] => inr seen
  | t :: ts' =>
      match collectTypes reg throwOnUnresolved t seen with
      | inl e => inl e
      | inr seen' => collectAllTypes reg throwOnUnresolved ts' seen'
      end
  end.

Definition util_getUniqTypes (reg : Registry) (meta : MetaMapped)
    (throwError : bool) : Exn + gset string :=
  collectAllTypes reg throwError (typeRefs meta) ∅.

(** [getUniqTypes (throwError)]:
    [return getUniqTypes(this.registry, this.asLatest, throwError)] *)
Definition getUniqTypes (throwError : bool) : M (gset string) :=
  let* reg := get_registry in
  let* latestMeta := asLatest in
  lift (util_getUniqTypes reg latestMeta throwError).

(** Every identifier a type reference mentions, and the same for a list of
    type references. *)
Fixpoint identifiers (t : TypeRef) : gset string :=
  match t with
  | TypeExpr id inner =>
      {[ id ]} ∪
      (fix all (ts : list TypeRef) : gset string :=
         match ts with
         | [] => ∅
         | t' :: ts' => identifiers t' ∪ all ts'
         end) inner
  end.

Fixpoint identifiersAll (ts : list TypeRef) : gset string :=
  match ts with
  | [] => ∅
  | t :: ts' => identifiers t ∪ identifiersAll ts'
  end.

(** In strict mode the walk either returns every identifier, all of them
    resolved, or fails on an identifier that is mentioned and not
    resolved. *)
Definition strict_outcome (reg : Registry) (ids seen : gset string)
    (r : Exn + gset string) : Prop :=
  match r with
  | inr out =>
      out = ids ∪ seen /\ forall id, id ∈ ids -> hasType reg id = true
  | inl e =>
      exists id, e = UnresolvedTypeError id /\ id ∈ ids /\
                 hasType reg id = false
  end.

(** Modelled from the spec: [v15/toLatest] is not under src/.  The spec
    takes [asLatest] to be "equivalent to [asVersion(latestKnownVersion)]":
    the function returns the version-15 value it is given. *)
Definition toLatest_returns_input : Prop :=
  forall (reg : Registry) (v15 : MetaMapped) (metaVersion : Z),
    toLatest reg v15 metaVersion = v15.

(** ** Histories of calls

    What a client can do with the object, and the state the object is in
    after a sequence of such calls (whatever each call returned or
    threw). *)
Inductive Call :=
  | Get_asV (n : Z)
  | Get_asLatest
  | Get_asCallsOnly
  | Get_magicNumber
  | Get_version
  | Call_getUniqTypes (throwError : bool)
  | Call_toJSON.

Definition perform (c : Call) (this : MetadataVersioned) : MetadataVersioned :=
  match c with
  | Get_asV n => snd (this_ (asV n) this)
  | Get_asLatest => snd (asLatest this)
  | Get_asCallsOnly => snd (asCallsOnly this)
  | Get_magicNumber => snd (magicNumber this)
  | Get_version => snd (version this)
  | Call_getUniqTypes throwError => snd (getUniqTypes throwError this)
  | Call_toJSON => snd (toJSON this)
  end.

Definition after (calls : list Call) (this : MetadataVersioned)
    : MetadataVersioned :=
  foldl (fun this' c => perform c this') this calls.

(** ** What the getters are meant to compute *)

(** The upgrade function each numbered getter hands to [#getVersion]. *)
Definition registeredStep (n : Z) : UpgradeStep :=
  match n with
  | 10 => toV10 | 11 => toV11 | 12 => toV12
  | 13 => toV13 | 14 => toV14 | 15 => toV15
  | _ => fun _ x _ => x
  end.

(** [count] adjacent steps in ascending order, the first one being the step
    to version [from + 1]; every step is given [metaVersion]. *)
Fixpoint applySteps (reg : Registry) (metaVersion : Z) (count : nat)
    (from : Z) (x : MetaMapped) : MetaMapped :=
  match count with
  | O => x
  | S count' =>
      applySteps reg metaVersion count' (from + 1)
        (registeredStep (from + 1) reg x metaVersion)
  end.

(** The wrapped value after the [n - version] steps that lead to
    version [n]. *)
Definition upgraded (this : MetadataVersioned) (n : Z) : MetaMapped :=
  let s := index (field_metadata this) in
  applySteps (registry this) s (Z.to_nat (n - s)) s
    (value (field_metadata this)).

Definition same_fields (a b : MetadataVersioned) : Prop :=
  registry a = registry b /\
  field_magicNumber a = field_magicNumber b /\
  field_metadata a = field_metadata b.

(** The state of the cache and of the call record in every state the object
    can reach. *)
Record Inv (this : MetadataVersioned) : Prop := {
  cache_values : forall n x,
    converted this !! Ver n = Some x ->
    index (field_metadata this) < n <= 15 /\ x = upgraded this n;
  cache_latest : forall x,
    converted this !! latest = Some x ->
    x = toLatest (registry this) (upgraded this 15)
          (index (field_metadata this));
  cache_contiguous : forall n j,
    is_Some (converted this !! Ver n) ->
    index (field_metadata this) < j <= n ->
    is_Some (converted this !! Ver j);
  cache_latest_last : forall j,
    is_Some (converted this !! latest) ->
    index (field_metadata this) < j <= 15 ->
    is_Some (converted this !! Ver j);
  calls_once : NoDup (call_key <$> upgradeCalls this);
  calls_cached : forall k,
    k ∈ (call_key <$> upgradeCalls this) <-> is_Some (converted this !! k);
  calls_args : forall c,
    c ∈ upgradeCalls this ->
    call_registry c = registry this /\
    call_metaVersion c = index (field_metadata this) /\
    call_input c = match call_key c with
                   | Ver n => upgraded this (n - 1)
                   | latest => upgraded this 15
                   end
}.

(** The state [#getVersion] leaves behind after a miss on [key]: the
    upgrade function has been called on [prev] and its result stored. *)
Definition filled (key : MetaVersions) (fromPrev : UpgradeStep)
    (reg : Registry) (prev : MetaMapped) (this : MetadataVersioned)
    : MetadataVersioned :=
  {| registry := registry this;
     field_magicNumber := field_magicNumber this;
     field_metadata := field_metadata this;
     converted :=
       <[key := fromPrev reg prev (index (field_metadata this))]>
         (converted this);
     upgradeCalls :=
       upgradeCalls this ++
         [{| call_key := key; call_registry := reg; call_input := prev;
             call_metaVersion := index (field_metadata this) |}] |}.

(** What a getter for version [n] does to the state [this], returning [x]
    and leaving [this']. *)
Record getter_post (n : Z) (this : MetadataVersioned) (x : MetaMapped)
    (this' : MetadataVersioned) : Prop := {
  post_fields : same_fields this this';
  post_mono : converted this ⊆ converted this';
  post_native :
    index (field_metadata this) = n -> x = value (field_metadata this);
  post_unchanged :
    index (field_metadata this) = n \/ is_Some (converted this !! Ver n) ->
    this' = this;
  post_cached :
    index (field_metadata this) < n -> converted this' !! Ver n = Some x;
  post_added : forall k,
    is_Some (converted this' !! k) ->
    is_Some (converted this !! k) \/
    exists j, k = Ver j /\ index (field_metadata this) < j <= n;
  post_inv :
    Inv this ->
    Inv this' /\ x = upgraded this n /\
    forall j, index (field_metadata this) < j <= n ->
              is_Some (converted this' !! Ver j)
}.

(** The same for [asLatest]. *)
Record latest_post (this : MetadataVersioned) (x : MetaMapped)
    (this' : MetadataVersioned) : Prop := {
  lpost_fields : same_fields this this';
  lpost_mono : converted this ⊆ converted this';
  lpost_unchanged : is_Some (converted this !! latest) -> this' = this;
  lpost_cached : converted this' !! latest = Some x;
  lpost_inv :
    Inv this ->
    Inv this' /\
    x = toLatest (registry this) (upgraded this 15)
          (index (field_metadata this)) /\
    forall j, index (field_metadata this) < j <= 15 ->
              is_Some (converted this' !! Ver j)
}.

Definition getter_ok (n : Z) (g : M MetaMapped) : Prop :=
  forall this,
    (n < index (field_metadata this) ->
     g this =
     (inl (Error (cannotConvert (index (field_metadata this)) n)), this)) /\
    (index (field_metadata this) <= n ->
     exists x this', g this = (inr x, this') /\ getter_post n this x this').

End MetadataVersioned.

(** ** The states a record goes through

    The cache can only be filled in one order: the versions above the wrapped
    one in ascending order, then [latest]. *)
Section Resolution.

Context {imports : Imports}.

(** The keys of [#converted] in the order in which a record wrapping version
    [s] can fill them. *)
Definition chainKeys (s : Z) : list MetaVersions :=
  (Ver <$> seqZ (s + 1) (15 - s)) ++ [latest].

(** A new record after its first [k] cache fills. *)
Fixpoint resolved (reg : Registry) (magic : MagicNumber)
    (md : MetadataAll MetaMapped) (k : nat) : MetadataVersioned :=
  match k with
  | O => new_MetadataVersioned reg magic md
  | S k' =>
      let this := resolved reg magic md k' in
      let n := index md + Z.of_nat k' + 1 in
      if n <=? 15
      then filled (Ver n) (registeredStep n) reg (upgraded this (n - 1)) this
      else filled latest toLatest reg (upgraded this 15) this
  end.

(** How many cache fills a call asks for, counted from the wrapped version
    [s]: a numbered getter that does not throw asks for the versions up to
    its own, and whatever goes through [asLatest] asks for everything. *)
Definition demand (s : Z) (c : Call) : nat :=
  match c with
  | Get_asV n => if (s <=? n) && (n <=? 15) then Z.to_nat (n - s) else O
  | Get_asLatest | Get_asCallsOnly | Call_getUniqTypes _ | Call_toJSON =>
      Z.to_nat (16 - s)
  | Get_magicNumber | Get_version => O
  end.

(** A getter for version [n] takes the record from its [k]-th fill to the
    fill that reaches [n], unless it is already past it. *)
Definition getter_resolves (reg : Registry) (magic : MagicNumber)
    (md : MetadataAll MetaMapped) (n : Z) (g : M MetaMapped) : Prop :=
  forall k : nat,
    Z.of_nat k <= 16 - index md ->
    index md <= n ->
    g (resolved reg magic md k) =
    (inr (upgraded (new_MetadataVersioned reg magic md) n),
     resolved reg magic md (k `max` Z.to_nat (n - index md))).

End Resolution.

(** ** A small instance on which the definitions can be run

    A decoded value is the list of what was done to it: every upgrade step
    appends its target version and the [metaVersion] it was given. *)
Definition sampleStep (target : Z) : unit -> list Z -> Z -> list Z :=
  fun _ x metaVersion => x ++ [target; metaVersion].

Definition sampleTypeRefs : list TypeRef :=
  [TypeExpr "Vec" [TypeExpr "Balance" []; TypeExpr "Mystery" []];
   TypeExpr "Balance" []].

Definition sample : Imports := {|
  Registry := unit;
  MagicNumber := Z;
  MetaMapped := list Z;
  AnyJson := Z * Z * list Z;
  toV10 := sampleStep 10;
  toV11 := sampleStep 11;
  toV12 := sampleStep 12;
  toV13 := sampleStep 13;
  toV14 := sampleStep 14;
  toV15 := sampleStep 15;
  toLatest := fun _ x _ => x;
  toCallsOnly := fun _ x => take 1 x;
  Struct_toJSON := fun magic md => (magic, index md, value md);
  typeRefs := fun _ => sampleTypeRefs;
  hasType := fun _ id => bool_decide (id <> "Mystery")
|}.

(** A version-9 and a version-12 record over [sample]. *)
Definition sampleV9 : @MetadataVersioned sample :=
  @new_MetadataVersioned sample tt 1635018093 (V9 [9]).

Definition sampleV12 : @MetadataVersioned sample :=
  @new_MetadataVersioned sample tt 1635018093 (V12 [12]).

(** The call of [toV10] that the getter [asV10] makes on [sampleV9]. *)
Definition sampleCall : @UpgradeCall sample :=
  @Build_UpgradeCall sample (Ver 10) tt [9] 9.

(** ** The values are live objects

    [#getVersion] hands [fromPrev] the object [this[asPrev]] itself (the
    wrapped value, or an entry of [#converted]), not a copy, and the comment
    in [toJSON] says that what [asLatest] runs changes what the struct
    serialises.  Above, an upgrade function is run for its result alone;
    here it may also change the values the record holds, and [toJSON] prints
    them as they are then. *)

(** What the upgrade function called for the cache key [key], with registry
    [reg] and [metaVersion], leaves of a value the record holds: it is handed
    the value below [key] itself, and a value shares parts with the values
    it was upgraded from. *)
Class Effects {imports : Imports} := {
  touch : MetaVersions -> Registry -> Z -> MetaMapped -> MetaMapped
}.

(** The union [e] with its value replaced, the tag kept. *)
Definition withValue {T} (e : MetadataAll T) (x : T) : MetadataAll T :=
  match e with
  | V9 _ => V9 x | V10 _ => V10 x | V11 _ => V11 x | V12 _ => V12 x
  | V13 _ => V13 x | V14 _ => V14 x | V15 _ => V15 x
  end.

Module Live.
Section Live.

Context {imports : Imports} {effects : Effects}.

Notation "'let*' x ':=' c 'in' k" := (bind c (fun x => k))
  (at level 10, x pattern, c at level 100, k at level 200, only parsing).

(** [fromPrev(registry, input, metaVersion)] on live objects: the call is
    recorded, and the wrapped value and the entries of [#converted] are what
    the function leaves of them. *)
Definition call (fromPrev : UpgradeStep) (key : MetaVersions)
    (reg : Registry) (input : MetaMapped) (metaVersion : Z) : M MetaMapped :=
  fun this =>
    (inr (fromPrev reg input metaVersion),
     {| registry := registry this;
        field_magicNumber := field_magicNumber this;
        field_metadata :=
          withValue (field_metadata this)
            (touch key reg metaVersion (value (field_metadata this)));
        converted := touch key reg metaVersion <$> converted this;
        upgradeCalls :=
          upgradeCalls this ++
            [{| call_key := key; call_registry := reg; call_input := input;
                call_metaVersion := metaVersion |}] |}).

(** [#getVersion], as above but for the call of [fromPrev]. *)
Definition getVersion (this_ : MetaAsX -> M MetaMapped)
    (v : MetaVersions) (fromPrev : UpgradeStep) : M MetaMapped :=
  let* isCurr := match v with
                 | latest => ret false
                 | Ver n => assertVersion n
                 end in
  match v, isCurr with
  | Ver n, true =>
      let asCurr := asV n in
      let* md := metadata in
      lift (enumAs md asCurr)
  | _, _ =>
      let* has := converted_has v in
      let* _ :=
        if negb has
        then
          let asPrev := match v with
                        | latest => asV LATEST_VERSION
                        | Ver n => asV (n - 1)
                        end in
          let* reg := get_registry in
          let* prev := this_ asPrev in
          let* thisVersion := version in
          let* out := call fromPrev v reg prev thisVersion in
          converted_set v out
        else ret tt in
      converted_get v
  end.

(** The getters; [asV9] calls no upgrade function and is the one above. *)
Definition asV10 : M MetaMapped := getVersion (only 9 asV9) (Ver 10) toV10.
Definition asV11 : M MetaMapped := getVersion (only 10 asV10) (Ver 11) toV11.
Definition asV12 : M MetaMapped := getVersion (only 11 asV11) (Ver 12) toV12.
Definition asV13 : M MetaMapped := getVersion (only 12 asV12) (Ver 13) toV13.
Definition asV14 : M MetaMapped := getVersion (only 13 asV13) (Ver 14) toV14.
Definition asV15 : M MetaMapped := getVersion (only 14 asV14) (Ver 15) toV15.

Definition asLatest : M MetaMapped :=
  getVersion (only 15 asV15) latest toLatest.

Definition this_ : MetaAsX -> M MetaMapped :=
  fun '(asV n) =>
    match n with
    | 9 => asV9 | 10 => asV10 | 11 => asV11 | 12 => asV12
    | 13 => asV13 | 14 => asV14 | 15 => asV15
    | _ => absent
    end.

(** [get asCallsOnly] *)
Definition asCallsOnly : M MetadataVersioned :=
  let* reg := get_registry in
  let* magic := magicNumber in
  let* latestMeta := asLatest in
  let* md :=
    lift (createMetadataAll (toCallsOnly reg latestMeta) TO_CALLS_VERSION) in
  ret (new_MetadataVersioned reg magic md).

(** [toJSON]: [this.asLatest; return super.toJSON()].  [super_toJSON], above,
    serialises the two fields as they are in the state it is run in. *)
Definition toJSON : M AnyJson :=
  let* _ := asLatest in
  super_toJSON.

(** [getUniqTypes (throwError)] *)
Definition getUniqTypes (throwError : bool) : M (gset string) :=
  let* reg := get_registry in
  let* latestMeta := asLatest in
  lift (util_getUniqTypes reg latestMeta throwError).

Definition perform (c : Call) (this : MetadataVersioned) : MetadataVersioned :=
  match c with
  | Get_asV n => snd (this_ (asV n) this)
  | Get_asLatest => snd (asLatest this)
  | Get_asCallsOnly => snd (asCallsOnly this)
  | Get_magicNumber => snd (magicNumber this)
  | Get_version => snd (version this)
  | Call_getUniqTypes throwError => snd (getUniqTypes throwError this)
  | Call_toJSON => snd (toJSON this)
  end.

Definition after (calls : list Call) (this : MetadataVersioned)
    : MetadataVersioned :=
  foldl (fun this' c => perform c this') this calls.

(** What the upgrade functions called for [keys], in this order, leave of
    [x]. *)
Definition touchedBy (reg : Registry) (metaVersion : Z)
    (keys : list MetaVersions) (x : MetaMapped) : MetaMapped :=
  foldl (fun x' key => touch key reg metaVersion x') x keys.

(** The state [#getVersion] leaves behind after a miss on [key]. *)
Definition filled (key : MetaVersions) (fromPrev : UpgradeStep)
    (reg : Registry) (prev : MetaMapped) (this : MetadataVersioned)
    : MetadataVersioned :=
  {| registry := registry this;
     field_magicNumber := field_magicNumber this;
     field_metadata :=
       withValue (field_metadata this)
         (touch key reg (index (field_metadata this))
            (value (field_metadata this)));
     converted :=
       <[key := fromPrev reg prev (index (field_metadata this))]>
         (touch key reg (index (field_metadata this)) <$> converted this);
     upgradeCalls :=
       upgradeCalls this ++
         [{| call_key := key; call_registry := reg; call_input := prev;
             call_metaVersion := index (field_metadata this) |}] |}.

(** A new record after its first [k] cache fills. *)
Fixpoint resolved (reg : Registry) (magic : MagicNumber)
    (md : MetadataAll MetaMapped) (k : nat) : MetadataVersioned :=
  match k with
  | O => new_MetadataVersioned reg magic md
  | S k' =>
      let n := index md + Z.of_nat k' + 1 in
      if n <=? 15
      then filled (Ver n) (registeredStep n) reg
             (upgraded (new_MetadataVersioned reg magic md) (n - 1))
             (resolved reg magic md k')
      else filled latest toLatest reg
             (upgraded (new_MetadataVersioned reg magic md) 15)
             (resolved reg magic md k')
  end.

(** What the version-[j] value of the record holds after [k] fills: the
    upgraded value as left by the upgrade functions called after it was
    made. *)
Definition content (reg : Registry) (magic : MagicNumber)
    (md : MetadataAll MetaMapped) (k : nat) (j : Z) : MetaMapped :=
  touchedBy reg (index md)
    (drop (Z.to_nat (j - index md)) (take k (chainKeys (index md))))
    (upgraded (new_MetadataVersioned reg magic md) j).

Definition getter_resolves (reg : Registry) (magic : MagicNumber)
    (md : MetadataAll MetaMapped) (n : Z) (g : M MetaMapped) : Prop :=
  forall k : nat,
    Z.of_nat k <= 16 - index md ->
    index md <= n ->
    g (resolved reg magic md k) =
    (inr (content reg magic md (k `max` Z.to_nat (n - index md)) n),
     resolved reg magic md (k `max` Z.to_nat (n - index md))).

End Live.
End Live.

(** Upgrade functions that leave a mark on every value: the opposite of its
    cache key, or -16 for [toLatest]. *)
Definition sampleTouch (key : MetaVersions) (reg : unit) (metaVersion : Z)
    (x : list Z) : list Z :=
  x ++ [match key with Ver n => - n | latest => -16 end].

Definition sampleEffects : @Effects sample := @Build_Effects sample sampleTouch.

(** Upgrade functions that leave every value as it is. *)
Definition noEffects {imports : Imports} : Effects := {|
  touch := fun _ _ _ x => x
|}.

Section Properties.

Context {imports : Imports}.

Implicit Types (this : MetadataVersioned) (n : Z) (key : MetaVersions).

Lemma index_range (md : MetadataAll MetaMapped) : 9 <= index md <= 15.
Proof. destruct md; simpl; lia. Qed.

Lemma createMetadataAll_index (x : MetaMapped) (md : MetadataAll MetaMapped) :
  createMetadataAll x TO_CALLS_VERSION = inr md -> index md = 14 /\ value md = x.
Proof. unfold TO_CALLS_VERSION; simpl; intros [= <-]; done. Qed.

(** *** Applying upgrade steps *)

Lemma applySteps_last reg mv count from x :
  applySteps reg mv (S count) from x =
  registeredStep (from + Z.of_nat (S count)) reg
    (applySteps reg mv count from x) mv.
Proof.
  revert from x; induction count as [|count IH]; intros from x.
  - reflexivity.
  - change (applySteps reg mv (S (S count)) from x)
      with (applySteps reg mv (S count) (from + 1)
              (registeredStep (from + 1) reg x mv)).
    rewrite IH. simpl applySteps at 2.
    f_equal. lia.
Qed.

Lemma upgraded_native this :
  upgraded this (index (field_metadata this)) = value (field_metadata this).
Proof. unfold upgraded. by rewrite Z.sub_diag. Qed.

Lemma upgraded_step this n :
  index (field_metadata this) < n ->
  upgraded this n =
  registeredStep n (registry this) (upgraded this (n - 1))
    (index (field_metadata this)).
Proof.
  intros Hlt. unfold upgraded.
  set (s := index (field_metadata this)) in *.
  replace (Z.to_nat (n - s)) with (S (Z.to_nat (n - 1 - s))) by lia.
  rewrite applySteps_last. f_equal. lia.
Qed.

Lemma upgraded_same_fields a b n :
  same_fields a b -> upgraded b n = upgraded a n.
Proof. intros (Hr & _ & Hm). unfold upgraded. by rewrite Hr, Hm. Qed.

(** *** [#assertVersion] and [#getVersion], case by case *)

Ltac run :=
  cbv beta iota zeta delta
    [getVersion assertVersion bind version metadata get_registry ret throw
     lift converted_has converted_get converted_set call magicNumber].

Lemma assertVersion_throw n this :
  n < index (field_metadata this) ->
  assertVersion n this =
  (inl (Error (cannotConvert (index (field_metadata this)) n)), this).
Proof.
  intros Hlt. run.
  destruct (Z.gtb_spec (index (field_metadata this)) n); [done | lia].
Qed.

Lemma assertVersion_ok n this :
  index (field_metadata this) <= n ->
  assertVersion n this =
  (inr (index (field_metadata this) =? n), this).
Proof.
  intros Hle. run.
  destruct (Z.gtb_spec (index (field_metadata this)) n); [lia | done].
Qed.

Lemma getVersion_throw tbl n f this :
  n < index (field_metadata this) ->
  getVersion tbl (Ver n) f this =
  (inl (Error (cannotConvert (index (field_metadata this)) n)), this).
Proof.
  intros Hlt. unfold getVersion, bind. by rewrite assertVersion_throw.
Qed.

Lemma getVersion_current tbl n f this :
  index (field_metadata this) = n ->
  getVersion tbl (Ver n) f this = (inr (value (field_metadata this)), this).
Proof.
  intros Heq. unfold getVersion, bind.
  rewrite assertVersion_ok by lia.
  rewrite (proj2 (Z.eqb_eq _ _) Heq).
  unfold metadata, lift, enumAs. by rewrite (proj2 (Z.eqb_eq _ _) Heq).
Qed.

Lemma getVersion_hit tbl n f this x :
  index (field_metadata this) < n ->
  converted this !! Ver n = Some x ->
  getVersion tbl (Ver n) f this = (inr x, this).
Proof.
  intros Hlt Hx. unfold getVersion, bind.
  rewrite assertVersion_ok by lia.
  rewrite (proj2 (Z.eqb_neq _ _)) by lia.
  unfold converted_has, converted_get, ret. rewrite Hx.
  rewrite bool_decide_eq_true_2 by eauto. simpl. by rewrite Hx.
Qed.

Lemma getVersion_miss tbl n f this :
  index (field_metadata this) < n ->
  converted this !! Ver n = None ->
  getVersion tbl (Ver n) f this =
  match tbl (asV (n - 1)) this with
  | (inr prev, this1) =>
      (inr (f (registry this) prev (index (field_metadata this1))),
       filled (Ver n) f (registry this) prev this1)
  | (inl e, this1) => (inl e, this1)
  end.
Proof.
  intros Hlt Hx. unfold getVersion, bind.
  rewrite assertVersion_ok by lia.
  rewrite (proj2 (Z.eqb_neq _ _)) by lia.
  unfold converted_has, ret. rewrite Hx.
  rewrite bool_decide_eq_false_2 by (intros [? [=]]). simpl.
  destruct (tbl (asV (n - 1)) this) as [[e|prev] this1]; [done|].
  unfold converted_get, filled. simpl. by rewrite lookup_insert_eq.
Qed.

Lemma getLatest_hit tbl f this x :
  converted this !! latest = Some x ->
  getVersion tbl latest f this = (inr x, this).
Proof.
  intros Hx. unfold getVersion, bind, ret, converted_has, converted_get.
  rewrite Hx. rewrite bool_decide_eq_true_2 by eauto. simpl. by rewrite Hx.
Qed.

Lemma getLatest_miss tbl f this :
  converted this !! latest = None ->
  getVersion tbl latest f this =
  match tbl (asV LATEST_VERSION) this with
  | (inr prev, this1) =>
      (inr (f (registry this) prev (index (field_metadata this1))),
       filled latest f (registry this) prev this1)
  | (inl e, this1) => (inl e, this1)
  end.
Proof.
  intros Hx. unfold getVersion, bind, ret, converted_has.
  rewrite Hx. rewrite bool_decide_eq_false_2 by (intros [? [=]]). simpl.
  destruct (tbl (asV LATEST_VERSION) this) as [[e|prev] this1]; [done|].
  unfold converted_get, filled. simpl. by rewrite lookup_insert_eq.
Qed.

(** *** The invariant survives a cache fill *)

Lemma filled_same_fields key f reg prev this :
  same_fields this (filled key f reg prev this).
Proof. done. Qed.

Lemma same_fields_trans a b c :
  same_fields a b -> same_fields b c -> same_fields a c.
Proof. intros (?&?&?) (?&?&?); repeat split; congruence. Qed.

Lemma Inv_new reg magic md : Inv (new_MetadataVersioned reg magic md).
Proof.
  split; simpl.
  - intros n x. by rewrite lookup_empty.
  - intros x. by rewrite lookup_empty.
  - intros n j [? Hn]. by rewrite lookup_empty in Hn.
  - intros j [? Hn]. by rewrite lookup_empty in Hn.
  - constructor.
  - intros k. rewrite lookup_empty. split.
    + by intros ?%elem_of_nil.
    + by intros [? ?].
  - by intros c ?%elem_of_nil.
Qed.

Lemma Inv_filled key f prev this :
  Inv this ->
  converted this !! key = None ->
  match key with
  | Ver n =>
      index (field_metadata this) < n <= 15 /\
      f = registeredStep n /\ prev = upgraded this (n - 1) /\
      (forall j, index (field_metadata this) < j < n ->
                 is_Some (converted this !! Ver j))
  | latest =>
      f = toLatest /\ prev = upgraded this 15 /\
      (forall j, index (field_metadata this) < j <= 15 ->
                 is_Some (converted this !! Ver j))
  end ->
  Inv (filled key f (registry this) prev this).
Proof.
  intros HI Hnone Hkey.
  pose proof (upgraded_same_fields this
                (filled key f (registry this) prev this)) as Hup.
  specialize (fun n => Hup n (filled_same_fields _ _ _ _ _)).
  split; simpl.
  - intros m x Hm. rewrite Hup.
    apply lookup_insert_Some in Hm as [[-> <-]|[Hne Hm]].
    + destruct Hkey as (Hr & -> & -> & _). split; [done|].
      by rewrite (upgraded_step this m) by lia.
    + by apply (cache_values _ HI).
  - intros x Hx. rewrite Hup.
    apply lookup_insert_Some in Hx as [[-> <-]|[Hne Hx]].
    + by destruct Hkey as (-> & -> & _).
    + by apply (cache_latest _ HI).
  - intros m j Hm Hj. apply lookup_insert_is_Some.
    destruct (decide (key = Ver j)) as [|Hne]; [by left|right].
    split; [done|].
    apply lookup_insert_is_Some in Hm as [->|[Hne' Hm]].
    + destruct Hkey as (_ & _ & _ & Hcov). apply Hcov.
      assert (j <> m) by congruence. lia.
    + by apply (cache_contiguous _ HI m).
  - intros j Hl Hj. apply lookup_insert_is_Some.
    destruct (decide (key = Ver j)) as [|Hne]; [by left|right].
    split; [done|].
    apply lookup_insert_is_Some in Hl as [->|[Hne' Hl]].
    + destruct Hkey as (_ & _ & Hcov). by apply Hcov.
    + by apply (cache_latest_last _ HI).
  - rewrite fmap_app. apply NoDup_app. split; [apply (calls_once _ HI)|].
    split; [|apply NoDup_singleton].
    intros k Hk ->%list_elem_of_singleton.
    apply (calls_cached _ HI) in Hk as [? Hk]. simpl in Hk. congruence.
  - intros k. rewrite fmap_app, elem_of_app, lookup_insert_is_Some.
    rewrite (calls_cached _ HI k). simpl. rewrite list_elem_of_singleton.
    split.
    + intros [Hk| ->]; [|by left].
      destruct (decide (key = k)); [by left|by right].
    + intros [->|[_ Hk]]; [by right|by left].
  - intros c [Hc| ->%list_elem_of_singleton]%elem_of_app.
    + destruct (calls_args _ HI c Hc) as (? & ? & Hin).
      repeat split; [done..|].
      rewrite Hin. destruct (call_key c); by rewrite Hup.
    + simpl. repeat split.
      destruct key; rewrite Hup; [by destruct Hkey as (_&_&->&_)|].
      by destruct Hkey as (_&->&_).
Qed.

(** *** Every getter meets [getter_ok] *)

Lemma getter_post_native n this :
  index (field_metadata this) = n ->
  getter_post n this (value (field_metadata this)) this.
Proof.
  intros Hn. split; try done.
  - lia.
  - by left.
  - intros HI. split; [done|]. split; [|lia].
    by rewrite <- Hn, upgraded_native.
Qed.

Lemma getter_post_hit n this x :
  index (field_metadata this) < n ->
  converted this !! Ver n = Some x ->
  getter_post n this x this.
Proof.
  intros Hlt Hx. split; try done.
  - lia.
  - by left.
  - intros HI. split; [done|]. split.
    + by apply (cache_values _ HI).
    + intros j Hj. by apply (cache_contiguous _ HI n); [eauto|].
Qed.

Lemma getter_post_miss n this prev this1 :
  10 <= n <= 15 ->
  index (field_metadata this) < n ->
  converted this !! Ver n = None ->
  getter_post (n - 1) this prev this1 ->
  getter_post n this
    (registeredStep n (registry this) prev (index (field_metadata this1)))
    (filled (Ver n) (registeredStep n) (registry this) prev this1).
Proof.
  intros Hn Hlt Hnone Hprev.
  destruct (post_fields _ _ _ _ Hprev) as (Hreg & Hmagic & Hmd).
  assert (converted this1 !! Ver n = None) as Hnone1.
  { apply eq_None_not_Some. intros Hs.
    destruct (post_added _ _ _ _ Hprev _ Hs) as [[? ?]|(j & [= ->] & ?)];
      [congruence | lia]. }
  split.
  - eapply same_fields_trans; [apply (post_fields _ _ _ _ Hprev)|done].
  - etrans; [apply (post_mono _ _ _ _ Hprev)|]. by apply insert_subseteq.
  - lia.
  - intros [?|[? ?]]; [lia | congruence].
  - intros _. simpl. by rewrite lookup_insert_eq.
  - intros k. simpl. rewrite lookup_insert_is_Some.
    intros [<-|[_ Hk]].
    + right. exists n. split; [done | lia].
    + destruct (post_added _ _ _ _ Hprev _ Hk) as [?|(j & -> & ?)];
        [by left|].
      right. exists j. split; [done | lia].
  - intros HI.
    destruct (post_inv _ _ _ _ Hprev HI) as (HI1 & -> & Hcov).
    rewrite Hreg. split; [|split].
    + apply Inv_filled; [done..|]. rewrite <- Hmd.
      split; [lia|]. split; [done|].
      split; [by apply upgraded_same_fields|].
      intros j Hj. apply Hcov. lia.
    + rewrite <- Hreg, <- Hmd. symmetry. by apply upgraded_step.
    + intros j Hj. simpl. rewrite lookup_insert_is_Some.
      destruct (decide (j = n)) as [->|]; [by left|right].
      split; [congruence|]. apply Hcov. lia.
Qed.

Lemma asV9_ok : getter_ok 9 asV9.
Proof.
  intros this. pose proof (index_range (field_metadata this)) as Hr.
  split; intros Hs; unfold asV9, bind.
  - by rewrite assertVersion_throw.
  - rewrite assertVersion_ok by done. unfold metadata, lift, enumAs.
    assert (index (field_metadata this) = 9) as H9 by lia.
    rewrite (proj2 (Z.eqb_eq _ _) H9).
    eexists _, _. split; [done|]. by apply getter_post_native.
Qed.

Lemma getVersion_ok tbl n :
  10 <= n <= 15 ->
  getter_ok (n - 1) (tbl (asV (n - 1))) ->
  getter_ok n (getVersion tbl (Ver n) (registeredStep n)).
Proof.
  intros Hn Hprev this. split; intros Hs.
  - by apply getVersion_throw.
  - destruct (decide (index (field_metadata this) = n)) as [Heq|Hne].
    { rewrite getVersion_current by done.
      eexists _, _. split; [done|]. by apply getter_post_native. }
    destruct (converted this !! Ver n) as [x|] eqn:Hx.
    { rewrite (getVersion_hit _ _ _ _ x) by (done || lia).
      eexists _, _. split; [done|]. apply getter_post_hit; [lia|done]. }
    rewrite getVersion_miss by (done || lia).
    destruct (Hprev this) as [_ Hok].
    destruct Hok as (prev & this1 & -> & Hpost); [lia|].
    eexists _, _. split; [done|].
    apply getter_post_miss; [done|lia|done..].
Qed.

Lemma asV10_ok : getter_ok 10 asV10.
Proof. apply (getVersion_ok _ 10); [lia | apply asV9_ok]. Qed.

Lemma asV11_ok : getter_ok 11 asV11.
Proof. apply (getVersion_ok _ 11); [lia | apply asV10_ok]. Qed.

Lemma asV12_ok : getter_ok 12 asV12.
Proof. apply (getVersion_ok _ 12); [lia | apply asV11_ok]. Qed.

Lemma asV13_ok : getter_ok 13 asV13.
Proof. apply (getVersion_ok _ 13); [lia | apply asV12_ok]. Qed.

Lemma asV14_ok : getter_ok 14 asV14.
Proof. apply (getVersion_ok _ 14); [lia | apply asV13_ok]. Qed.

Lemma asV15_ok : getter_ok 15 asV15.
Proof. apply (getVersion_ok _ 15); [lia | apply asV14_ok]. Qed.

(** The getters are the one-liners of the source over the whole of
    [this]. *)
Lemma getter_unfold n :
  10 <= n <= 15 ->
  this_ (asV n) = getVersion this_ (Ver n) (registeredStep n).
Proof.
  intros Hn.
  assert (n = 10 \/ n = 11 \/ n = 12 \/ n = 13 \/ n = 14 \/ n = 15)
    as Hcases by lia.
  destruct Hcases as [->|[->|[->|[->|[->| ->]]]]]; reflexivity.
Qed.

Lemma asLatest_unfold : asLatest = getVersion this_ latest toLatest.
Proof. reflexivity. Qed.

Lemma this_ok n : 9 <= n <= 15 -> getter_ok n (this_ (asV n)).
Proof.
  intros Hn.
  assert (n = 9 \/ n = 10 \/ n = 11 \/ n = 12 \/ n = 13 \/ n = 14 \/ n = 15)
    as Hcases by lia.
  destruct Hcases as [->|[->|[->|[->|[->|[->| ->]]]]]]; simpl;
    auto using asV9_ok, asV10_ok, asV11_ok, asV12_ok, asV13_ok, asV14_ok,
      asV15_ok.
Qed.

(** No getter ever falls back on [undefined] or on a variant the union does
    not hold. *)
Lemma getter_defined n this :
  9 <= n <= 15 ->
  fst (this_ (asV n) this) <> inl UndefinedValue /\
  forall i via, fst (this_ (asV n) this) <> inl (EnumAccess i via).
Proof.
  intros Hn. destruct (this_ok n Hn this) as [Hthrow Hok].
  destruct (decide (n < index (field_metadata this))) as [Hlt|Hge].
  - by rewrite Hthrow.
  - destruct Hok as (x & this' & -> & _); [lia | done].
Qed.

(** The steps from version 12 to version 14, written out. *)
Example upgraded_12_to_14 reg magic x :
  upgraded (new_MetadataVersioned reg magic (V12 x)) 14 =
  toV14 reg (toV13 reg x 12) 12.
Proof. reflexivity. Qed.

Lemma asLatest_ok this :
  exists x this', asLatest this = (inr x, this') /\ latest_post this x this'.
Proof.
  unfold asLatest.
  destruct (converted this !! latest) as [x|] eqn:Hx.
  { rewrite (getLatest_hit _ _ _ x) by done.
    eexists _, _. split; [done|]. split; try done.
    intros HI. split; [done|]. split.
    - by apply (cache_latest _ HI).
    - intros j Hj. by apply (cache_latest_last _ HI); [eauto|]. }
  rewrite getLatest_miss by done.
  change (only 15 asV15 (asV LATEST_VERSION)) with asV15.
  pose proof (index_range (field_metadata this)) as Hr.
  destruct (asV15_ok this) as [_ Hok].
  destruct Hok as (prev & this1 & -> & Hpost); [lia|].
  destruct (post_fields _ _ _ _ Hpost) as (Hreg & Hmagic & Hmd).
  assert (converted this1 !! latest = None) as Hnone1.
  { apply eq_None_not_Some. intros Hs.
    destruct (post_added _ _ _ _ Hpost _ Hs) as [[? ?]|(j & [=] & ?)].
    congruence. }
  eexists _, _. split; [done|]. split.
  - eapply same_fields_trans; [apply (post_fields _ _ _ _ Hpost)|done].
  - etrans; [apply (post_mono _ _ _ _ Hpost)|]. by apply insert_subseteq.
  - intros [? ?]. congruence.
  - simpl. by rewrite lookup_insert_eq.
  - intros HI.
    destruct (post_inv _ _ _ _ Hpost HI) as (HI1 & -> & Hcov).
    rewrite Hreg. split; [|split].
    + apply Inv_filled; [done..|]. rewrite <- Hmd.
      split; [done|]. split; [by apply upgraded_same_fields|done].
    + by rewrite <- Hmd.
    + intros j Hj. simpl. rewrite lookup_insert_is_Some.
      right. split; [done|]. by apply Hcov.
Qed.

(** *** Histories: no call changes a field or breaks the invariant *)

Lemma getter_state n this :
  same_fields this (snd (this_ (asV n) this)) /\
  converted this ⊆ converted (snd (this_ (asV n) this)) /\
  (Inv this -> Inv (snd (this_ (asV n) this))).
Proof.
  destruct (decide (9 <= n <= 15)) as [Hn|Hn].
  - destruct (this_ok n Hn this) as [Hthrow Hok].
    destruct (decide (n < index (field_metadata this))) as [Hlt|Hge].
    + by rewrite Hthrow.
    + destruct Hok as (x & this' & -> & Hpost); [lia|]. simpl.
      split; [apply (post_fields _ _ _ _ Hpost)|].
      split; [apply (post_mono _ _ _ _ Hpost)|].
      intros HI. by destruct (post_inv _ _ _ _ Hpost HI).
  - assert (this_ (asV n) = absent) as ->; [|done].
    simpl. destruct n as [|p|p]; try done.
    do 4 (destruct p as [p|p|]; try done; try lia).
Qed.

Lemma asLatest_state this :
  same_fields this (snd (asLatest this)) /\
  converted this ⊆ converted (snd (asLatest this)) /\
  (Inv this -> Inv (snd (asLatest this))).
Proof.
  destruct (asLatest_ok this) as (x & this' & -> & Hpost). simpl.
  split; [apply (lpost_fields _ _ _ Hpost)|].
  split; [apply (lpost_mono _ _ _ Hpost)|].
  intros HI. by destruct (lpost_inv _ _ _ Hpost HI).
Qed.

Lemma asCallsOnly_state this : snd (asCallsOnly this) = snd (asLatest this).
Proof.
  unfold asCallsOnly, bind, get_registry, magicNumber, lift, ret.
  destruct (asLatest this) as [[e|x] this']; [done|]. simpl.
  by destruct (createMetadataAll (toCallsOnly (registry this) x)
                 TO_CALLS_VERSION).
Qed.

Lemma getUniqTypes_state throwError this :
  snd (getUniqTypes throwError this) = snd (asLatest this).
Proof.
  unfold getUniqTypes, bind, get_registry, lift.
  by destruct (asLatest this) as [[e|x] this'].
Qed.

Lemma toJSON_state this : snd (toJSON this) = snd (asLatest this).
Proof.
  unfold toJSON, bind, super_toJSON.
  by destruct (asLatest this) as [[e|x] this'].
Qed.

Lemma perform_state c this :
  same_fields this (perform c this) /\
  converted this ⊆ converted (perform c this) /\
  (Inv this -> Inv (perform c this)).
Proof.
  destruct c; simpl;
    rewrite ?asCallsOnly_state, ?getUniqTypes_state, ?toJSON_state;
    first [apply getter_state | apply asLatest_state | done].
Qed.

Lemma after_snoc calls c this :
  after (calls ++ [c]) this = perform c (after calls this).
Proof. unfold after. by rewrite foldl_app. Qed.

Lemma after_state calls this :
  same_fields this (after calls this) /\
  converted this ⊆ converted (after calls this) /\
  (Inv this -> Inv (after calls this)).
Proof.
  induction calls as [|c calls IH] using rev_ind; [done|].
  rewrite after_snoc.
  destruct IH as (Hf & Hm & HI).
  destruct (perform_state c (after calls this)) as (Hf' & Hm' & HI').
  split; [by eapply same_fields_trans|].
  split; [by etrans|auto].
Qed.

Lemma Inv_after calls reg magic md :
  Inv (after calls (new_MetadataVersioned reg magic md)).
Proof. apply after_state, Inv_new. Qed.

(** *** The unique-type extraction *)

Lemma TypeRef_nested_ind (P : TypeRef -> Prop) :
  (forall id inner, Forall P inner -> P (TypeExpr id inner)) ->
  forall t, P t.
Proof.
  intros HP. fix IH 1. intros [id inner]. apply HP.
  induction inner as [|t ts IHts]; constructor; [apply IH | apply IHts].
Qed.

Lemma identifiers_unfold id inner :
  identifiers (TypeExpr id inner) = {[ id ]} ∪ identifiersAll inner.
Proof. reflexivity. Qed.

Lemma collectTypes_unfold reg throwError id inner seen :
  collectTypes reg throwError (TypeExpr id inner) seen =
  if throwError && negb (hasType reg id)
  then inl (UnresolvedTypeError id)
  else collectAllTypes reg throwError inner ({[ id ]} ∪ seen).
Proof.
  simpl. destruct (throwError && negb (hasType reg id)); [done|].
  generalize ({[ id ]} ∪ seen).
  induction inner as [|t ts IH]; intros acc; simpl; [done|].
  destruct (collectTypes reg throwError t acc); [done | apply IH].
Qed.

(** In lenient mode the walk never fails and returns every identifier. *)
Lemma collectTypes_lenient reg t seen :
  collectTypes reg false t seen = inr (identifiers t ∪ seen).
Proof.
  revert seen. induction t as [id inner IH] using TypeRef_nested_ind.
  intros seen. rewrite collectTypes_unfold, identifiers_unfold. simpl.
  assert (forall acc, collectAllTypes reg false inner acc =
                      inr (identifiersAll inner ∪ acc)) as Hall.
  { induction IH as [|t ts Ht _ IHts]; intros acc; simpl.
    - f_equal. set_solver.
    - rewrite Ht, IHts. f_equal. set_solver. }
  rewrite Hall. f_equal. set_solver.
Qed.

Lemma collectAllTypes_lenient reg ts seen :
  collectAllTypes reg false ts seen = inr (identifiersAll ts ∪ seen).
Proof.
  revert seen. induction ts as [|t ts IH]; intros seen; simpl.
  - f_equal. set_solver.
  - rewrite collectTypes_lenient, IH. f_equal. set_solver.
Qed.

Lemma collectTypes_strict reg t seen :
  strict_outcome reg (identifiers t) seen (collectTypes reg true t seen).
Proof.
  revert seen. induction t as [id inner IH] using TypeRef_nested_ind.
  intros seen. rewrite collectTypes_unfold, identifiers_unfold. simpl.
  destruct (hasType reg id) eqn:Hid; simpl.
  2:{ exists id. split; [done|]. split; [set_solver | done]. }
  assert (forall acc, strict_outcome reg (identifiersAll inner) acc
                        (collectAllTypes reg true inner acc)) as Hall.
  { induction IH as [|t ts Ht _ IHts]; intros acc; simpl.
    - split; [set_solver|]. intros ? ?%not_elem_of_empty. done.
    - specialize (Ht acc).
      destruct (collectTypes reg true t acc) as [e|acc'].
      + destruct Ht as (id' & -> & ? & ?). exists id'. set_solver.
      + destruct Ht as [-> Hres]. specialize (IHts (identifiers t ∪ acc)).
        destruct (collectAllTypes reg true ts (identifiers t ∪ acc)).
        * destruct IHts as (id' & -> & ? & ?). exists id'. set_solver.
        * destruct IHts as [-> Hres']. split; [set_solver|].
          intros id' [?|?]%elem_of_union; auto. }
  specialize (Hall ({[ id ]} ∪ seen)).
  destruct (collectAllTypes reg true inner ({[ id ]} ∪ seen)).
  - destruct Hall as (id' & -> & ? & ?). exists id'. set_solver.
  - destruct Hall as [-> Hres]. split; [set_solver|].
    intros id' [->%elem_of_singleton|?]%elem_of_union; auto.
Qed.

Lemma collectAllTypes_strict reg ts seen :
  strict_outcome reg (identifiersAll ts) seen
    (collectAllTypes reg true ts seen).
Proof.
  revert seen. induction ts as [|t ts IH]; intros seen; simpl.
  - split; [set_solver|]. intros ? ?%not_elem_of_empty. done.
  - pose proof (collectTypes_strict reg t seen) as Ht.
    destruct (collectTypes reg true t seen) as [e|acc'].
    + destruct Ht as (id' & -> & ? & ?). exists id'. set_solver.
    + destruct Ht as [-> Hres]. specialize (IH (identifiers t ∪ seen)).
      destruct (collectAllTypes reg true ts (identifiers t ∪ seen)).
      * destruct IH as (id' & -> & ? & ?). exists id'. set_solver.
      * destruct IH as [-> Hres']. split; [set_solver|].
        intros id' [?|?]%elem_of_union; auto.
Qed.

(** ** The claims *)

(** What a numbered getter returns in a state the object can reach. *)
Lemma getter_reached reg magic md calls n :
  index md <= n <= 15 ->
  exists this',
    this_ (asV n) (after calls (new_MetadataVersioned reg magic md)) =
    (inr (upgraded (new_MetadataVersioned reg magic md) n), this') /\
    getter_post n (after calls (new_MetadataVersioned reg magic md))
      (upgraded (new_MetadataVersioned reg magic md) n) this'.
Proof.
  intros Hn. pose proof (index_range md) as Hr.
  set (this0 := new_MetadataVersioned reg magic md).
  destruct (after_state calls this0) as (Hf & _ & HI).
  specialize (HI (Inv_new _ _ _)).
  pose proof Hf as (Hreg & Hmagic & Hmd). simpl in Hreg, Hmagic, Hmd.
  destruct (this_ok n ltac:(lia) (after calls this0)) as [_ Hok].
  rewrite <- Hmd in Hok.
  destruct Hok as (x & this' & Hrun & Hpost); [lia|].
  destruct (post_inv _ _ _ _ Hpost HI) as (_ & Hx & _).
  rewrite (upgraded_same_fields this0) in Hx by done. subst x.
  by exists this'.
Qed.

(** What [asLatest] returns in a state the object can reach. *)
Lemma asLatest_reached reg magic md calls :
  exists this',
    asLatest (after calls (new_MetadataVersioned reg magic md)) =
    (inr (toLatest reg (upgraded (new_MetadataVersioned reg magic md) 15)
            (index md)), this') /\
    latest_post (after calls (new_MetadataVersioned reg magic md))
      (toLatest reg (upgraded (new_MetadataVersioned reg magic md) 15)
         (index md)) this'.
Proof.
  set (this0 := new_MetadataVersioned reg magic md).
  destruct (after_state calls this0) as (Hf & _ & HI).
  specialize (HI (Inv_new _ _ _)).
  destruct (asLatest_ok (after calls this0)) as (x & this' & Hrun & Hpost).
  destruct (lpost_inv _ _ _ Hpost HI) as (_ & Hx & _).
  rewrite (upgraded_same_fields this0) in Hx by done.
  destruct Hf as (Hreg & Hmagic & Hmd). simpl in Hreg, Hmagic, Hmd.
  rewrite <- Hreg, <- Hmd in Hx. subst x.
  by exists this'.
Qed.


(** C2 (monotonicity).  In any state whatsoever of a record wrapping
    version [s] (whatever [#converted] holds), a numbered getter for a
    version [n < s] throws the error whose message names [s] and [n] and
    leaves the state as it was; a numbered getter for [n >= s] returns a
    value, so the error is never thrown there. *)
Theorem C2_downgrade_rejected (this : MetadataVersioned) n :
  9 <= n <= 15 ->
  (n < index (field_metadata this) ->
   this_ (asV n) this =
   (inl (Error (cannotConvert (index (field_metadata this)) n)), this)) /\
  (index (field_metadata this) <= n ->
   exists x this', this_ (asV n) this = (inr x, this')).
Proof.
  intros Hn. destruct (this_ok n Hn this) as [Hthrow Hok].
  split; [done|]. intros Hle.
  destruct (Hok Hle) as (x & this' & Hrun & _). eauto.
Qed.

(** C3 (latest stability).  With [toLatest] handing back the version-15
    value it is given, [asLatest] returns, after any history of calls, the
    very value the getter [asV15] returns after any other history: the
    wrapped value upgraded to [LATEST_VERSION]. *)
Theorem C3_latest_stability reg magic md calls calls' :
  toLatest_returns_input ->
  index md <= LATEST_VERSION ->
  fst (asLatest (after calls (new_MetadataVersioned reg magic md))) =
  fst (this_ (asV LATEST_VERSION)
         (after calls' (new_MetadataVersioned reg magic md))) /\
  fst (asLatest (after calls (new_MetadataVersioned reg magic md))) =
  inr (applySteps reg (index md) (Z.to_nat (LATEST_VERSION - index md))
         (index md) (value md)).
Proof.
  intros Hid Hle. unfold LATEST_VERSION in *.
  destruct (asLatest_reached reg magic md calls) as (this1 & -> & _).
  destruct (getter_reached reg magic md calls' 15) as (this2 & -> & _).
  { pose proof (index_range md). lia. }
  simpl. by rewrite Hid.
Qed.

(** C4 (memoisation).  After any history of calls on a record wrapping
    version [s]: a getter [asV{n}] with [s < n <= 15], and likewise
    [asLatest], returns the entry it leaves in [#converted]; called again
    it returns that same entry and changes nothing, so no upgrade function
    runs a second time.  And over the whole history no two calls of an
    upgrade function were made for the same cache key. *)
Theorem C4_memoization reg magic md calls :
  (forall n, index md < n <= 15 ->
     exists x this1,
       this_ (asV n) (after calls (new_MetadataVersioned reg magic md)) =
       (inr x, this1) /\
       converted this1 !! Ver n = Some x /\
       this_ (asV n) this1 = (inr x, this1)) /\
  (exists x this1,
     asLatest (after calls (new_MetadataVersioned reg magic md)) =
     (inr x, this1) /\
     converted this1 !! latest = Some x /\
     asLatest this1 = (inr x, this1)) /\
  NoDup (call_key <$>
           upgradeCalls (after calls (new_MetadataVersioned reg magic md))).
Proof.
  set (this0 := new_MetadataVersioned reg magic md).
  destruct (after_state calls this0) as ((_ & _ & Hmd) & _ & HI).
  specialize (HI (Inv_new _ _ _)). simpl in Hmd.
  split; [|split].
  - intros n Hn. pose proof (index_range md) as Hr.
    destruct (this_ok n ltac:(lia) (after calls this0)) as [_ Hok].
    destruct Hok as (x & this1 & Hrun & Hpost); [rewrite <- Hmd; lia|].
    exists x, this1. split; [done|].
    assert (converted this1 !! Ver n = Some x) as Hx.
    { apply (post_cached _ _ _ _ Hpost). rewrite <- Hmd. lia. }
    split; [done|].
    destruct (post_fields _ _ _ _ Hpost) as (_ & _ & Hmd1).
    rewrite (getter_unfold n) by lia.
    apply getVersion_hit; [|done]. rewrite <- Hmd1, <- Hmd. lia.
  - destruct (asLatest_ok (after calls this0)) as (x & this1 & Hrun & Hpost).
    exists x, this1. split; [done|].
    split; [apply (lpost_cached _ _ _ Hpost)|].
    apply getLatest_hit, (lpost_cached _ _ _ Hpost).
  - apply (calls_once _ HI).
Qed.

(** C5 (the original version is the context).  After any history of calls
    on a record wrapping version [s], every call of an upgrade function
    that was made received [s] as [metaVersion], also where the value it
    was given is one version below the key it was called for.  On a new
    record wrapping version 9, [asLatest] calls the six steps to versions
    10 .. 15 in this order and then [toLatest], each with [metaVersion]
    9. *)
Theorem C5_original_version_context reg magic md calls :
  (forall c,
     c ∈ upgradeCalls (after calls (new_MetadataVersioned reg magic md)) ->
     call_metaVersion c = index md /\
     call_registry c = reg /\
     call_input c =
     match call_key c with
     | Ver n => applySteps reg (index md) (Z.to_nat (n - 1 - index md))
                  (index md) (value md)
     | latest => applySteps reg (index md) (Z.to_nat (15 - index md))
                   (index md) (value md)
     end) /\
  (index md = 9 ->
   (fun c => (call_key c, call_metaVersion c)) <$>
     upgradeCalls (snd (asLatest (new_MetadataVersioned reg magic md))) =
   [(Ver 10, 9); (Ver 11, 9); (Ver 12, 9); (Ver 13, 9); (Ver 14, 9);
    (Ver 15, 9); (latest, 9)]).
Proof.
  set (this0 := new_MetadataVersioned reg magic md).
  split.
  - destruct (after_state calls this0) as (Hf & _ & HI).
    specialize (HI (Inv_new _ _ _)).
    pose proof Hf as (Hreg & _ & Hmd). simpl in Hreg, Hmd.
    intros c Hc.
    destruct (calls_args _ HI c Hc) as (Hr & Hv & Hin).
    rewrite <- Hmd in Hv. rewrite <- Hreg in Hr.
    split; [done|]. split; [done|]. rewrite Hin.
    destruct (call_key c); by rewrite (upgraded_same_fields this0).
  - intros H9. destruct md; try discriminate H9. reflexivity.
Qed.

(** C6 (calls-only).  In any state of any record, [asCallsOnly] resolves
    [asLatest] and returns a new object: it wraps the calls-only reduction
    of the latest value as version [TO_CALLS_VERSION], which is 14 and not
    [LATEST_VERSION]; its [version] is 14 whatever version the source
    wraps; its [#converted] is empty; and [asLatest] on it returns a
    value. *)
Theorem C6_calls_only_pinned (this : MetadataVersioned) :
  exists latestMeta this' that,
    asLatest this = (inr latestMeta, this') /\
    asCallsOnly this = (inr that, this') /\
    that =
    new_MetadataVersioned (registry this) (field_magicNumber this)
      (V14 (toCallsOnly (registry this) latestMeta)) /\
    version that = (inr TO_CALLS_VERSION, that) /\
    TO_CALLS_VERSION = 14 /\
    TO_CALLS_VERSION <> LATEST_VERSION /\
    converted that = ∅ /\
    upgradeCalls that = [] /\
    exists x that', asLatest that = (inr x, that').
Proof.
  destruct (asLatest_ok this) as (x & this' & Hrun & Hpost).
  eexists x, this', _. split; [done|].
  split.
  { unfold asCallsOnly, bind, get_registry, magicNumber, lift, ret.
    rewrite Hrun. reflexivity. }
  split; [done|]. split; [done|]. split; [done|]. split; [done|].
  split; [done|]. split; [done|].
  destruct (asLatest_ok
              (new_MetadataVersioned (registry this) (field_magicNumber this)
                 (V14 (toCallsOnly (registry this) x))))
    as (y & that' & Hrun' & _).
  eauto.
Qed.

(** In any state, [toJSON] is [asLatest] followed by the struct's own
    [toJSON]. *)
Lemma toJSON_run (this : MetadataVersioned) :
  exists x this',
    asLatest this = (inr x, this') /\
    latest_post this x this' /\
    toJSON this = super_toJSON this' /\
    toJSON this =
    (inr (Struct_toJSON (field_magicNumber this) (field_metadata this)),
     this').
Proof.
  destruct (asLatest_ok this) as (x & this' & Hrun & Hpost).
  exists x, this'. split; [done|]. split; [done|].
  assert (toJSON this = super_toJSON this') as Hjson.
  { unfold toJSON, bind. by rewrite Hrun. }
  split; [done|]. rewrite Hjson. unfold super_toJSON.
  destruct (lpost_fields _ _ _ Hpost) as (_ & <- & <-). done.
Qed.

(** C8 (unique types).  After any history of calls, [getUniqTypes] hands
    the record's latest value to the extraction.  In lenient mode the
    result is the set of all identifiers that value mentions, resolved or
    not.  In strict mode, if some mentioned identifier is not resolved by
    the registry, the call fails with [UnresolvedTypeError] carrying an
    identifier that is mentioned and not resolved. *)
Theorem C8_unique_types reg magic md calls :
  (forall throwError,
     fst (getUniqTypes throwError
            (after calls (new_MetadataVersioned reg magic md))) =
     util_getUniqTypes reg
       (toLatest reg (upgraded (new_MetadataVersioned reg magic md) 15)
          (index md)) throwError) /\
  fst (getUniqTypes false
         (after calls (new_MetadataVersioned reg magic md))) =
  inr (identifiersAll
         (typeRefs
            (toLatest reg (upgraded (new_MetadataVersioned reg magic md) 15)
               (index md)))) /\
  ((exists id,
      id ∈ identifiersAll
             (typeRefs
                (toLatest reg
                   (upgraded (new_MetadataVersioned reg magic md) 15)
                   (index md))) /\
      hasType reg id = false) ->
   exists id,
     fst (getUniqTypes true
            (after calls (new_MetadataVersioned reg magic md))) =
     inl (UnresolvedTypeError id) /\
     id ∈ identifiersAll
            (typeRefs
               (toLatest reg
                  (upgraded (new_MetadataVersioned reg magic md) 15)
                  (index md))) /\
     hasType reg id = false).
Proof.
  set (this0 := new_MetadataVersioned reg magic md).
  set (latestMeta := toLatest reg (upgraded this0 15) (index md)).
  assert (forall throwError,
            fst (getUniqTypes throwError (after calls this0)) =
            util_getUniqTypes reg latestMeta throwError) as Hrun.
  { intros throwError.
    destruct (after_state calls this0) as ((Hreg & _) & _). simpl in Hreg.
    destruct (asLatest_reached reg magic md calls) as (this' & Hl & _).
    unfold getUniqTypes, bind, get_registry, lift.
    fold this0 in Hl. rewrite Hl. simpl. by rewrite <- Hreg. }
  split; [done|]. split.
  - rewrite Hrun. unfold util_getUniqTypes.
    rewrite collectAllTypes_lenient. f_equal. set_solver.
  - intros (id & Hid & Hunres). rewrite Hrun. unfold util_getUniqTypes.
    pose proof (collectAllTypes_strict reg (typeRefs latestMeta) ∅) as Hs.
    destruct (collectAllTypes reg true (typeRefs latestMeta) ∅) as [e|out].
    + destruct Hs as (id' & -> & ? & ?). by exists id'.
    + destruct Hs as [_ Hres]. specialize (Hres id Hid). congruence.
Qed.

End Properties.

(** ** The claims on the sample records *)


Lemma C2_downgrade_rejected_witness :
  9 <= 10 <= 15 /\
  10 < index (field_metadata (after [Get_asLatest] sampleV12)) /\
  is_Some (converted (after [Get_asLatest] sampleV12) !! latest) /\
  this_ (asV 10) (after [Get_asLatest] sampleV12) =
  (inl (Error "Cannot convert metadata from version 12 to 10"),
   after [Get_asLatest] sampleV12).
Proof.
  split; [lia|]. split; [by vm_compute|]. split; [vm_compute; eauto|].
  apply (C2_downgrade_rejected (after [Get_asLatest] sampleV12) 10);
    [lia | by vm_compute].
Defined.

Lemma C3_latest_stability_witness :
  @toLatest_returns_input sample /\
  index (V9 [9]) <= LATEST_VERSION /\
  fst (asLatest sampleV9) =
  fst (this_ (asV LATEST_VERSION) (after [Get_asLatest] sampleV9)).
Proof.
  assert (@toLatest_returns_input sample) as Hid by (intros ? ? ?; reflexivity).
  split; [exact Hid|]. split; [by vm_compute|].
  apply (C3_latest_stability (imports := sample) tt 1635018093 (V9 [9])
           [] [Get_asLatest] Hid).
  by vm_compute.
Defined.

Lemma C4_memoization_witness :
  index (V12 [12]) < 14 <= 15 /\
  exists x this1,
    this_ (asV 14) (after [Get_asV 13] sampleV12) = (inr x, this1) /\
    converted this1 !! Ver 14 = Some x /\
    this_ (asV 14) this1 = (inr x, this1).
Proof.
  split; [by vm_compute|].
  apply (proj1 (C4_memoization (imports := sample) tt 1635018093 (V12 [12])
                  [Get_asV 13]) 14).
  by vm_compute.
Defined.

Lemma C5_original_version_context_witness :
  sampleCall ∈ upgradeCalls (after [Get_asV 10] sampleV9) /\
  index (V9 [9]) = 9 /\
  call_metaVersion sampleCall = index (V9 [9]) /\
  (fun c => (call_key c, call_metaVersion c)) <$>
    upgradeCalls (snd (asLatest sampleV9)) =
  [(Ver 10, 9); (Ver 11, 9); (Ver 12, 9); (Ver 13, 9); (Ver 14, 9);
   (Ver 15, 9); (latest, 9)].
Proof.
  assert (sampleCall ∈ upgradeCalls (after [Get_asV 10] sampleV9)) as Hin.
  { vm_compute. apply list_elem_of_here. }
  split; [exact Hin|]. split; [reflexivity|].
  destruct (C5_original_version_context (imports := sample) tt 1635018093
              (V9 [9]) [Get_asV 10]) as [Hall Hnine].
  split; [apply (Hall _ Hin) | apply Hnine; reflexivity].
Defined.

Lemma C8_unique_types_witness :
  ("Mystery" ∈ identifiersAll sampleTypeRefs /\
   hasType (Imports := sample) tt "Mystery" = false) /\
  exists id,
    fst (getUniqTypes true (after [Get_asV 13] sampleV12)) =
    inl (UnresolvedTypeError id) /\
    id ∈ identifiersAll sampleTypeRefs /\
    hasType (Imports := sample) tt id = false.
Proof.
  assert ("Mystery" ∈ identifiersAll sampleTypeRefs /\
          hasType (Imports := sample) tt "Mystery" = false) as Hex.
  { split; [compute_done | reflexivity]. }
  split; [exact Hex|].
  apply (proj2 (proj2 (C8_unique_types (imports := sample) tt 1635018093
                         (V12 [12]) [Get_asV 13]))).
  exists "Mystery". exact Hex.
Defined.

(** ** Beyond the claims: the shape of every reachable state *)
Section Resolved.

Context {imports : Imports}.

Variables (reg : Registry) (magic : MagicNumber) (md : MetadataAll MetaMapped).

#[local] Abbreviation this0 := (new_MetadataVersioned reg magic md).
#[local] Abbreviation s := (index md).

Lemma resolved_fields k : same_fields this0 (resolved reg magic md k).
Proof.
  induction k as [|k IH]; [done|]. simpl.
  destruct (s + Z.of_nat k + 1 <=? 15);
    (eapply same_fields_trans; [exact IH | apply filled_same_fields]).
Qed.

Lemma resolved_index k : index (field_metadata (resolved reg magic md k)) = s.
Proof. by destruct (resolved_fields k) as (_ & _ & <-). Qed.

Lemma resolved_value k : value (field_metadata (resolved reg magic md k)) = value md.
Proof. by destruct (resolved_fields k) as (_ & _ & <-). Qed.

Lemma upgraded_at_version n : s = n -> upgraded this0 n = value md.
Proof. intros <-. apply (upgraded_native this0). Qed.

Lemma resolved_registry k : registry (resolved reg magic md k) = reg.
Proof. by destruct (resolved_fields k) as (<- & _). Qed.

Lemma resolved_upgraded k n :
  upgraded (resolved reg magic md k) n = upgraded this0 n.
Proof. apply upgraded_same_fields, resolved_fields. Qed.

Lemma resolved_S_Ver k n :
  n = s + Z.of_nat k + 1 -> n <= 15 ->
  resolved reg magic md (S k) =
  filled (Ver n) (registeredStep n) reg (upgraded this0 (n - 1))
    (resolved reg magic md k).
Proof.
  intros -> Hn. simpl. rewrite (proj2 (Z.leb_le _ _) Hn).
  by rewrite resolved_upgraded.
Qed.

Lemma resolved_S_latest k :
  15 < s + Z.of_nat k + 1 ->
  resolved reg magic md (S k) =
  filled latest toLatest reg (upgraded this0 15) (resolved reg magic md k).
Proof.
  intros Hn. simpl. rewrite (proj2 (Z.leb_gt _ _) Hn).
  by rewrite resolved_upgraded.
Qed.

Lemma resolved_lookup_Ver k j :
  converted (resolved reg magic md k) !! Ver j =
  if decide (s < j <= s + Z.of_nat k /\ j <= 15)
  then Some (upgraded this0 j) else None.
Proof.
  induction k as [|k IH].
  { simpl. rewrite lookup_empty. case_decide; [lia | done]. }
  destruct (decide (s + Z.of_nat k + 1 <= 15)) as [Hn|Hn].
  - rewrite (resolved_S_Ver k _ eq_refl Hn). simpl.
    destruct (decide (j = s + Z.of_nat k + 1)) as [->|Hne].
    + rewrite lookup_insert_eq, resolved_index.
      rewrite decide_True by lia.
      f_equal. symmetry. apply (upgraded_step this0). simpl. lia.
    + rewrite lookup_insert_ne by congruence. rewrite IH.
      repeat case_decide; (done || lia).
  - rewrite resolved_S_latest by lia. simpl.
    rewrite lookup_insert_ne by done. rewrite IH.
    repeat case_decide; (done || lia).
Qed.

Lemma resolved_lookup_latest k :
  converted (resolved reg magic md k) !! latest =
  if decide (16 - s <= Z.of_nat k)
  then Some (toLatest reg (upgraded this0 15) s) else None.
Proof.
  induction k as [|k IH].
  { simpl. rewrite lookup_empty. pose proof (index_range md).
    case_decide; [lia | done]. }
  destruct (decide (s + Z.of_nat k + 1 <= 15)) as [Hn|Hn].
  - rewrite (resolved_S_Ver k _ eq_refl Hn). simpl.
    rewrite lookup_insert_ne by done. rewrite IH.
    repeat case_decide; (done || lia).
  - rewrite resolved_S_latest by lia. simpl.
    rewrite lookup_insert_eq, resolved_index.
    by rewrite decide_True by lia.
Qed.


(** *** The getters on these states *)

Lemma asV9_resolves : getter_resolves reg magic md 9 asV9.
Proof.
  intros k Hk Hs. pose proof (index_range md) as Hr.
  destruct (asV9_ok (resolved reg magic md k)) as [_ Hok].
  rewrite resolved_index in Hok.
  destruct Hok as (x & this' & -> & Hpost); [done|].
  rewrite (post_unchanged _ _ _ _ Hpost) by (left; rewrite resolved_index; lia).
  rewrite (post_native _ _ _ _ Hpost) by (rewrite resolved_index; lia).
  replace (Z.to_nat (9 - s)) with O by lia. rewrite Nat.max_0_r.
  by rewrite resolved_value, upgraded_at_version by lia.
Qed.

Lemma getVersion_resolves tbl n :
  10 <= n <= 15 ->
  getter_resolves reg magic md (n - 1) (tbl (asV (n - 1))) ->
  getter_resolves reg magic md n (getVersion tbl (Ver n) (registeredStep n)).
Proof.
  intros Hn Hprev k Hk Hs.
  destruct (decide (s = n)) as [Heq|Hne].
  { rewrite getVersion_current by (by rewrite resolved_index).
    replace (Z.to_nat (n - s)) with O by lia. rewrite Nat.max_0_r.
    by rewrite resolved_value, upgraded_at_version. }
  pose proof (resolved_lookup_Ver k n) as Hlook.
  destruct (decide (s < n <= s + Z.of_nat k /\ n <= 15)) as [Hin|Hout].
  { rewrite (getVersion_hit _ _ _ _ (upgraded this0 n));
      [|rewrite resolved_index; lia|done].
    by rewrite Nat.max_l by lia. }
  rewrite getVersion_miss; [|rewrite resolved_index; lia|done].
  rewrite (Hprev k) by lia.
  replace (k `max` Z.to_nat (n - 1 - s))%nat with (Z.to_nat (n - 1 - s)) by lia.
  replace (k `max` Z.to_nat (n - s))%nat with (S (Z.to_nat (n - 1 - s))) by lia.
  rewrite (resolved_S_Ver _ n) by lia.
  rewrite resolved_index, resolved_registry.
  by rewrite <- (upgraded_step this0) by (simpl; lia).
Qed.

Lemma this_resolves n :
  9 <= n <= 15 -> getter_resolves reg magic md n (this_ (asV n)).
Proof.
  intros Hn.
  assert (getter_resolves reg magic md 9 asV9) as H9 by apply asV9_resolves.
  assert (getter_resolves reg magic md 10 asV10) as H10
    by (apply (getVersion_resolves _ 10); [lia | exact H9]).
  assert (getter_resolves reg magic md 11 asV11) as H11
    by (apply (getVersion_resolves _ 11); [lia | exact H10]).
  assert (getter_resolves reg magic md 12 asV12) as H12
    by (apply (getVersion_resolves _ 12); [lia | exact H11]).
  assert (getter_resolves reg magic md 13 asV13) as H13
    by (apply (getVersion_resolves _ 13); [lia | exact H12]).
  assert (getter_resolves reg magic md 14 asV14) as H14
    by (apply (getVersion_resolves _ 14); [lia | exact H13]).
  assert (getter_resolves reg magic md 15 asV15) as H15
    by (apply (getVersion_resolves _ 15); [lia | exact H14]).
  assert (n = 9 \/ n = 10 \/ n = 11 \/ n = 12 \/ n = 13 \/ n = 14 \/ n = 15)
    as Hcases by lia.
  by destruct Hcases as [->|[->|[->|[->|[->|[->| ->]]]]]].
Qed.

Lemma asLatest_resolves (k : nat) :
  Z.of_nat k <= 16 - s ->
  asLatest (resolved reg magic md k) =
  (inr (toLatest reg (upgraded this0 15) s),
   resolved reg magic md (Z.to_nat (16 - s))).
Proof.
  intros Hk. pose proof (index_range md) as Hr.
  pose proof (resolved_lookup_latest k) as Hlook. unfold asLatest.
  destruct (decide (16 - s <= Z.of_nat k)) as [Hin|Hout].
  { rewrite (getLatest_hit _ _ _ _ Hlook).
    by replace (Z.to_nat (16 - s)) with k by lia. }
  rewrite getLatest_miss by done.
  change (only 15 asV15 (asV LATEST_VERSION)) with (this_ (asV 15)).
  rewrite (this_resolves 15) by lia.
  replace (k `max` Z.to_nat (15 - s))%nat with (Z.to_nat (15 - s)) by lia.
  replace (Z.to_nat (16 - s)) with (S (Z.to_nat (15 - s))) by lia.
  rewrite resolved_S_latest by lia.
  by rewrite resolved_index, resolved_registry.
Qed.

Lemma demand_bound c : Z.of_nat (demand s c) <= 16 - s.
Proof.
  pose proof (index_range md) as Hr.
  destruct c as [n| | | | | |]; simpl; try lia.
  destruct (Z.leb_spec s n), (Z.leb_spec n 15); simpl; lia.
Qed.

Lemma perform_resolved c (k : nat) :
  Z.of_nat k <= 16 - s ->
  perform c (resolved reg magic md k) =
  resolved reg magic md (k `max` demand s c).
Proof.
  intros Hk. pose proof (index_range md) as Hr.
  assert (forall n, ~ 9 <= n <= 15 -> this_ (asV n) = absent) as Habsent.
  { intros n Hn. simpl. destruct n as [|p|p]; try done.
    do 4 (destruct p as [p|p|]; try done; try lia). }
  destruct c as [n| | | | | |]; cbn [perform demand];
    rewrite ?asCallsOnly_state, ?getUniqTypes_state, ?toJSON_state,
      ?asLatest_resolves by done;
    cbn [snd]; rewrite ?Nat.max_0_r; try done; try (f_equal; lia).
  destruct (Z.leb_spec s n) as [Hsn|Hsn];
    [destruct (Z.leb_spec n 15) as [Hn|Hn]|]; cbn [andb].
  - by rewrite (this_resolves n) by lia.
  - rewrite Nat.max_0_r. by rewrite Habsent by lia.
  - rewrite Nat.max_0_r.
    destruct (decide (9 <= n)) as [H9|H9]; [|by rewrite Habsent by lia].
    destruct (this_ok n ltac:(lia) (resolved reg magic md k)) as [Hthrow _].
    by rewrite Hthrow by (rewrite resolved_index; lia).
Qed.

Lemma max_list_with_snoc {A} (f : A -> nat) l x :
  max_list_with f (l ++ [x]) = (max_list_with f l `max` f x)%nat.
Proof. induction l as [|y l IH]; simpl; lia. Qed.

Lemma max_demand_bound calls :
  Z.of_nat (max_list_with (demand s) calls) <= 16 - s.
Proof.
  pose proof (index_range md) as Hr.
  induction calls as [|c calls IH]; simpl; [lia|].
  pose proof (demand_bound c). lia.
Qed.

Lemma after_resolved calls :
  after calls this0 = resolved reg magic md (max_list_with (demand s) calls).
Proof.
  induction calls as [|c calls IH] using rev_ind; [done|].
  rewrite after_snoc, IH, perform_resolved by apply max_demand_bound.
  by rewrite max_list_with_snoc.
Qed.

Lemma resolved_magicNumber k :
  field_magicNumber (resolved reg magic md k) = magic.
Proof. by destruct (resolved_fields k) as (_ & <- & _). Qed.

Lemma resolved_metadata k : field_metadata (resolved reg magic md k) = md.
Proof. by destruct (resolved_fields k) as (_ & _ & <-). Qed.

Lemma max_list_with_elem_of_le {A} (f : A -> nat) l x :
  x ∈ l -> (f x <= max_list_with f l)%nat.
Proof.
  induction 1 as [x l|x y l _ IH]; simpl; lia.
Qed.

Lemma max_list_with_incl {A} (f : A -> nat) l l' :
  (forall x, x ∈ l -> x ∈ l') ->
  (max_list_with f l <= max_list_with f l')%nat.
Proof.
  induction l as [|x l IH]; intros Hincl; simpl; [lia|].
  pose proof (max_list_with_elem_of_le f l' x (Hincl x (list_elem_of_here _ _))).
  assert (max_list_with f l <= max_list_with f l')%nat; [|lia].
  apply IH. intros y Hy. apply Hincl. by apply list_elem_of_further.
Qed.

(** X1.  The state of a record depends on which calls were made on it, not
    on their order nor on how often each was made: two histories with the
    same calls leave a new record in the same state, call record
    included. *)
Theorem X1_order_of_calls_irrelevant calls calls' :
  (forall c, c ∈ calls <-> c ∈ calls') ->
  after calls this0 = after calls' this0.
Proof.
  intros Hsame. rewrite !after_resolved. f_equal.
  apply Nat.le_antisymm; apply max_list_with_incl; intros c; apply Hsame.
Qed.

(** X2.  After any history: once [asLatest] has run, no call changes the
    state any more; and of two numbered getters, the one for the higher
    version (at most 15) leaves nothing to do for the other, whichever comes
    first. *)
Theorem X2_higher_request_absorbs_lower calls :
  (forall c,
     perform c (perform Get_asLatest (after calls this0)) =
     perform Get_asLatest (after calls this0)) /\
  (forall n m, n <= m <= 15 ->
     perform (Get_asV n) (perform (Get_asV m) (after calls this0)) =
     perform (Get_asV m) (after calls this0) /\
     perform (Get_asV m) (perform (Get_asV n) (after calls this0)) =
     perform (Get_asV m) (after calls this0)).
Proof.
  pose proof (index_range md) as Hr.
  pose proof (max_demand_bound calls) as HK.
  rewrite after_resolved.
  set (K := max_list_with (demand s) calls) in *.
  split.
  - intros c. pose proof (demand_bound c) as Hc.
    rewrite (perform_resolved Get_asLatest) by done.
    rewrite perform_resolved by (cbn [demand]; lia).
    f_equal. cbn [demand]. lia.
  - intros n m Hnm.
    pose proof (demand_bound (Get_asV n)) as Hn.
    pose proof (demand_bound (Get_asV m)) as Hm.
    assert (demand s (Get_asV n) <= demand s (Get_asV m))%nat as Hle.
    { cbn [demand].
      destruct (Z.leb_spec s n), (Z.leb_spec n 15), (Z.leb_spec s m),
        (Z.leb_spec m 15); cbn [andb]; lia. }
    rewrite (perform_resolved (Get_asV m)) by done.
    rewrite (perform_resolved (Get_asV n) K) by done.
    rewrite !perform_resolved by lia.
    split; f_equal; lia.
Qed.



(** X5.  In any state, a numbered getter for version [n] leaves alone the
    [latest] entry of [#converted] and every entry for a version above [n]
    or not above the wrapped one: it never upgrades further than it was
    asked to. *)
Theorem X5_getter_fills_no_further (this : MetadataVersioned) n key :
  9 <= n <= 15 ->
  key = latest \/
    (exists j, key = Ver j /\ (n < j \/ j <= index (field_metadata this))) ->
  converted (snd (this_ (asV n) this)) !! key = converted this !! key.
Proof.
  intros Hn Hkey. destruct (this_ok n Hn this) as [Hthrow Hok].
  destruct (decide (n < index (field_metadata this))) as [Hlt|Hge].
  { by rewrite Hthrow. }
  destruct Hok as (x & this' & -> & Hpost); [lia|]. simpl.
  destruct (converted this !! key) as [y|] eqn:Hy.
  - by apply (lookup_weaken _ _ _ _ Hy), (post_mono _ _ _ _ Hpost).
  - apply eq_None_not_Some. intros Hsome.
    destruct (post_added _ _ _ _ Hpost _ Hsome) as [[? ?]|(j & -> & Hj)];
      [congruence|].
    destruct Hkey as [[=]|(j' & [= <-] & ?)]. lia.
Qed.

End Resolved.

(** ** Beyond the claims: the calls-only record and the exceptions *)
Section CallsOnly.

Context {imports : Imports}.

(** X7.  In any state, the record [asCallsOnly] returns is a version-14
    record in every respect: its getter [asV14] returns the calls-only value
    as it is, its getters for lower versions throw the error naming 14, and
    its getters [asV15] and [asLatest] upgrade the calls-only value with 14,
    not with the version the source wraps, as [metaVersion]; so does every
    upgrade call ever made on it. *)
Theorem X7_calls_only_record_is_version_14 (this : MetadataVersioned) :
  exists latestMeta this' that,
    asLatest this = (inr latestMeta, this') /\
    asCallsOnly this = (inr that, this') /\
    this_ (asV 14) that =
    (inr (toCallsOnly (registry this) latestMeta), that) /\
    (forall n, 9 <= n < 14 ->
       this_ (asV n) that = (inl (Error (cannotConvert 14 n)), that)) /\
    fst (this_ (asV 15) that) =
    inr (toV15 (registry this)
           (toCallsOnly (registry this) latestMeta) 14) /\
    fst (asLatest that) =
    inr (toLatest (registry this)
           (toV15 (registry this)
              (toCallsOnly (registry this) latestMeta) 14) 14) /\
    (forall calls c,
       c ∈ upgradeCalls (after calls that) -> call_metaVersion c = 14).
Proof.
  destruct (asLatest_ok this) as (x & this' & Hrun & _).
  set (reg := registry this). set (magic := field_magicNumber this).
  set (md := V14 (toCallsOnly reg x)).
  exists x, this', (new_MetadataVersioned reg magic md).
  split; [done|]. split.
  { unfold asCallsOnly, bind, get_registry, magicNumber, lift, ret.
    by rewrite Hrun. }
  split.
  { apply (this_resolves reg magic md 14 ltac:(lia) O); simpl; lia. }
  split.
  { intros n Hn.
    by destruct (this_ok n ltac:(lia) (new_MetadataVersioned reg magic md))
      as [-> _]; [|simpl; lia]. }
  split.
  { change (new_MetadataVersioned reg magic md)
      with (resolved reg magic md O).
    by rewrite (this_resolves reg magic md 15 ltac:(lia) O) by (simpl; lia). }
  split.
  { change (new_MetadataVersioned reg magic md)
      with (resolved reg magic md O).
    by rewrite (asLatest_resolves reg magic md O) by (simpl; lia). }
  intros calls c Hc.
  by destruct (calls_args _ (Inv_after calls reg magic md) c Hc)
    as (_ & -> & _);
    destruct (after_state calls (new_MetadataVersioned reg magic md))
      as ((_ & _ & <-) & _).
Qed.

(** X8.  In any state, whatever [#converted] holds: [asLatest],
    [asCallsOnly] and [toJSON] return without throwing; and a numbered getter
    that throws throws the error naming the wrapped version and its own,
    does so only for a version below the wrapped one, and leaves the state
    as it was. *)
Theorem X8_no_other_exception (this : MetadataVersioned) :
  (exists x this', asLatest this = (inr x, this')) /\
  (exists that this', asCallsOnly this = (inr that, this')) /\
  (exists json this', toJSON this = (inr json, this')) /\
  (forall n e this',
     9 <= n <= 15 ->
     this_ (asV n) this = (inl e, this') ->
     e = Error (cannotConvert (index (field_metadata this)) n) /\
     n < index (field_metadata this) /\
     this' = this).
Proof.
  destruct (asLatest_ok this) as (x & this' & Hrun & _).
  split; [eauto|]. split; [|split].
  - unfold asCallsOnly, bind, get_registry, magicNumber, lift, ret.
    rewrite Hrun. simpl. eauto.
  - destruct (toJSON_run this) as (? & ? & _ & _ & _ & ->). eauto.
  - intros n e this1 Hn Hthrow.
    destruct (this_ok n Hn this) as [Hlt Hge].
    destruct (decide (n < index (field_metadata this))) as [Hn'|Hn'].
    + rewrite Hlt in Hthrow by done. by injection Hthrow as <- <-.
    + destruct Hge as (y & this2 & Hrun' & _); [lia|]. congruence.
Qed.

End CallsOnly.

(** ** The further properties on the sample records *)

Lemma X1_order_of_calls_irrelevant_witness :
  (forall c : Call,
     c ∈ [Get_asV 13; Get_asLatest] <->
     c ∈ [Get_asLatest; Get_asV 13; Get_asLatest]) /\
  after [Get_asV 13; Get_asLatest] sampleV12 =
  after [Get_asLatest; Get_asV 13; Get_asLatest] sampleV12.
Proof.
  assert (forall c : Call,
            c ∈ [Get_asV 13; Get_asLatest] <->
            c ∈ [Get_asLatest; Get_asV 13; Get_asLatest]) as Hsame
    by set_solver.
  split; [exact Hsame|].
  apply (X1_order_of_calls_irrelevant (imports := sample) tt 1635018093
           (V12 [12]) _ _ Hsame).
Defined.

Lemma X2_higher_request_absorbs_lower_witness :
  13 <= 14 <= 15 /\
  perform (Get_asV 13) (perform (Get_asV 14) (after [Get_version] sampleV12)) =
  perform (Get_asV 14) (after [Get_version] sampleV12).
Proof.
  split; [lia|].
  apply (proj2 (X2_higher_request_absorbs_lower (imports := sample) tt
                  1635018093 (V12 [12]) [Get_version]) 13 14).
  lia.
Defined.

Lemma X5_getter_fills_no_further_witness :
  9 <= 13 <= 15 /\
  (exists j, Ver 14 = Ver j /\
     (13 < j \/ j <= index (field_metadata (after [Get_asV 14] sampleV12)))) /\
  converted (snd (this_ (asV 13) (after [Get_asV 14] sampleV12))) !! Ver 14 =
  converted (after [Get_asV 14] sampleV12) !! Ver 14.
Proof.
  assert (exists j, Ver 14 = Ver j /\
            (13 < j \/
             j <= index (field_metadata (after [Get_asV 14] sampleV12))))
    as Hkey by (exists 14; split; [reflexivity | left; lia]).
  split; [lia|]. split; [exact Hkey|].
  apply (X5_getter_fills_no_further (after [Get_asV 14] sampleV12) 13
           (Ver 14)); [lia | right; exact Hkey].
Defined.

Lemma X7_calls_only_record_is_version_14_witness :
  9 <= 12 < 14 /\
  exists that,
    fst (asCallsOnly sampleV9) = inr that /\
    this_ (asV 12) that =
    (inl (Error "Cannot convert metadata from version 14 to 12"), that).
Proof.
  split; [lia|].
  destruct (X7_calls_only_record_is_version_14 sampleV9)
    as (x & this' & that & _ & Hrun & _ & Hthrow & _).
  exists that. split; [by rewrite Hrun|].
  apply (Hthrow 12). lia.
Defined.

Lemma X8_no_other_exception_witness :
  9 <= 10 <= 15 /\
  this_ (asV 10) sampleV12 =
  (inl (Error "Cannot convert metadata from version 12 to 10"), sampleV12) /\
  10 < index (field_metadata sampleV12).
Proof.
  assert (this_ (asV 10) sampleV12 =
          (inl (Error "Cannot convert metadata from version 12 to 10"),
           sampleV12)) as Hrun by reflexivity.
  split; [lia|]. split; [exact Hrun|].
  apply (proj2 (proj2 (proj2 (X8_no_other_exception sampleV12))) 10 _ _
           ltac:(lia) Hrun).
Defined.

(** ** Live objects: what the upgrade functions leave of the values *)
Section LiveProperties.

Context {imports : Imports} {effects : Effects}.

Lemma index_withValue {T} (e : MetadataAll T) x : index (withValue e x) = index e.
Proof. by destruct e. Qed.

Lemma value_withValue {T} (e : MetadataAll T) x : value (withValue e x) = x.
Proof. by destruct e. Qed.

Lemma withValue_withValue {T} (e : MetadataAll T) x y :
  withValue (withValue e x) y = withValue e y.
Proof. by destruct e. Qed.

Lemma withValue_value {T} (e : MetadataAll T) : withValue e (value e) = e.
Proof. by destruct e. Qed.

(** *** [#getVersion] on live objects, case by case *)

Lemma live_getVersion_throw tbl n f this :
  n < index (field_metadata this) ->
  Live.getVersion tbl (Ver n) f this =
  (inl (Error (cannotConvert (index (field_metadata this)) n)), this).
Proof.
  intros Hlt. unfold Live.getVersion, bind. by rewrite assertVersion_throw.
Qed.

Lemma live_getVersion_current tbl n f this :
  index (field_metadata this) = n ->
  Live.getVersion tbl (Ver n) f this =
  (inr (value (field_metadata this)), this).
Proof.
  intros Heq. unfold Live.getVersion, bind.
  rewrite assertVersion_ok by lia.
  rewrite (proj2 (Z.eqb_eq _ _) Heq).
  unfold metadata, lift, enumAs. by rewrite (proj2 (Z.eqb_eq _ _) Heq).
Qed.

Lemma live_getVersion_hit tbl n f this x :
  index (field_metadata this) < n ->
  converted this !! Ver n = Some x ->
  Live.getVersion tbl (Ver n) f this = (inr x, this).
Proof.
  intros Hlt Hx. unfold Live.getVersion, bind.
  rewrite assertVersion_ok by lia.
  rewrite (proj2 (Z.eqb_neq _ _)) by lia.
  unfold converted_has, converted_get, ret. rewrite Hx.
  rewrite bool_decide_eq_true_2 by eauto. simpl. by rewrite Hx.
Qed.

Lemma live_getVersion_miss tbl n f this :
  index (field_metadata this) < n ->
  converted this !! Ver n = None ->
  Live.getVersion tbl (Ver n) f this =
  match tbl (asV (n - 1)) this with
  | (inr prev, this1) =>
      (inr (f (registry this) prev (index (field_metadata this1))),
       Live.filled (Ver n) f (registry this) prev this1)
  | (inl e, this1) => (inl e, this1)
  end.
Proof.
  intros Hlt Hx. unfold Live.getVersion, bind.
  rewrite assertVersion_ok by lia.
  rewrite (proj2 (Z.eqb_neq _ _)) by lia.
  unfold converted_has, ret. rewrite Hx.
  rewrite bool_decide_eq_false_2 by (intros [? [=]]). simpl.
  destruct (tbl (asV (n - 1)) this) as [[e|prev] this1]; [done|].
  unfold converted_get, Live.filled. simpl. by rewrite lookup_insert_eq.
Qed.

Lemma live_getLatest_hit tbl f this x :
  converted this !! latest = Some x ->
  Live.getVersion tbl latest f this = (inr x, this).
Proof.
  intros Hx. unfold Live.getVersion, bind, ret, converted_has, converted_get.
  rewrite Hx. rewrite bool_decide_eq_true_2 by eauto. simpl. by rewrite Hx.
Qed.

Lemma live_getLatest_miss tbl f this :
  converted this !! latest = None ->
  Live.getVersion tbl latest f this =
  match tbl (asV LATEST_VERSION) this with
  | (inr prev, this1) =>
      (inr (f (registry this) prev (index (field_metadata this1))),
       Live.filled latest f (registry this) prev this1)
  | (inl e, this1) => (inl e, this1)
  end.
Proof.
  intros Hx. unfold Live.getVersion, bind, ret, converted_has.
  rewrite Hx. rewrite bool_decide_eq_false_2 by (intros [? [=]]). simpl.
  destruct (tbl (asV LATEST_VERSION) this) as [[e|prev] this1]; [done|].
  unfold converted_get, Live.filled. simpl. by rewrite lookup_insert_eq.
Qed.

Lemma live_getter_throw n this :
  9 <= n <= 15 ->
  n < index (field_metadata this) ->
  Live.this_ (asV n) this =
  (inl (Error (cannotConvert (index (field_metadata this)) n)), this).
Proof.
  intros Hn Hlt.
  assert (n = 9 \/ n = 10 \/ n = 11 \/ n = 12 \/ n = 13 \/ n = 14 \/ n = 15)
    as Hcases by lia.
  destruct Hcases as [->|[->|[->|[->|[->|[->| ->]]]]]];
    [by apply asV9_ok | by apply live_getVersion_throw..].
Qed.

Lemma live_getter_absent n : ~ 9 <= n <= 15 -> Live.this_ (asV n) = absent.
Proof.
  intros Hn. simpl. destruct n as [|p|p]; try done.
  do 4 (destruct p as [p|p|]; try done; try lia).
Qed.

(** *** The chain of cache keys *)

Lemma length_chainKeys s : 9 <= s <= 15 -> length (chainKeys s) = Z.to_nat (16 - s).
Proof.
  intros Hs. unfold chainKeys.
  rewrite length_app, length_fmap, length_seqZ. simpl. lia.
Qed.

Lemma chainKeys_lookup_Ver s (k : nat) :
  s + Z.of_nat k + 1 <= 15 ->
  chainKeys s !! k = Some (Ver (s + Z.of_nat k + 1)).
Proof.
  intros Hk. unfold chainKeys.
  rewrite lookup_app_l by (rewrite length_fmap, length_seqZ; lia).
  rewrite list_lookup_fmap, lookup_seqZ_lt by lia. simpl.
  do 2 f_equal. lia.
Qed.

Lemma chainKeys_lookup_latest s (k : nat) :
  9 <= s <= 15 -> Z.of_nat k = 15 - s -> chainKeys s !! k = Some latest.
Proof.
  intros Hs Hk. unfold chainKeys.
  rewrite lookup_app_r by (rewrite length_fmap, length_seqZ; lia).
  rewrite length_fmap, length_seqZ.
  by replace (k - Z.to_nat (15 - s))%nat with O by lia.
Qed.

Lemma touchedBy_snoc reg mv keys key x :
  Live.touchedBy reg mv (keys ++ [key]) x =
  touch key reg mv (Live.touchedBy reg mv keys x).
Proof. unfold Live.touchedBy. by rewrite foldl_app. Qed.

End LiveProperties.

Section LiveResolved.

Context {imports : Imports} {effects : Effects}.

Variables (reg : Registry) (magic : MagicNumber) (md : MetadataAll MetaMapped).

#[local] Abbreviation this0 := (new_MetadataVersioned reg magic md).
#[local] Abbreviation s := (index md).

Lemma live_resolved_registry k : registry (Live.resolved reg magic md k) = reg.
Proof.
  induction k as [|k IH]; [done|]. simpl.
  by destruct (s + Z.of_nat k + 1 <=? 15).
Qed.

Lemma live_resolved_magicNumber k :
  field_magicNumber (Live.resolved reg magic md k) = magic.
Proof.
  induction k as [|k IH]; [done|]. simpl.
  by destruct (s + Z.of_nat k + 1 <=? 15).
Qed.

Lemma live_resolved_index k :
  index (field_metadata (Live.resolved reg magic md k)) = s.
Proof.
  induction k as [|k IH]; [done|]. simpl.
  destruct (s + Z.of_nat k + 1 <=? 15); simpl; by rewrite index_withValue.
Qed.

Lemma live_resolved_S_Ver k n :
  n = s + Z.of_nat k + 1 -> n <= 15 ->
  Live.resolved reg magic md (S k) =
  Live.filled (Ver n) (registeredStep n) reg (upgraded this0 (n - 1))
    (Live.resolved reg magic md k).
Proof. intros -> Hn. simpl. by rewrite (proj2 (Z.leb_le _ _) Hn). Qed.

Lemma live_resolved_S_latest k :
  15 < s + Z.of_nat k + 1 ->
  Live.resolved reg magic md (S k) =
  Live.filled latest toLatest reg (upgraded this0 15)
    (Live.resolved reg magic md k).
Proof. intros Hn. simpl. by rewrite (proj2 (Z.leb_gt _ _) Hn). Qed.

(** The content of a value one fill later, and of the value made last. *)
Lemma content_S (k : nat) key j :
  chainKeys s !! k = Some key ->
  j - s <= Z.of_nat k ->
  Live.content reg magic md (S k) j =
  touch key reg s (Live.content reg magic md k j).
Proof.
  intros Hkey Hj. unfold Live.content.
  rewrite (take_S_r _ _ _ Hkey).
  assert (length (take k (chainKeys s)) = k) as Hlen.
  { apply length_take_le. apply lookup_lt_Some in Hkey. lia. }
  rewrite drop_app_le by lia.
  apply touchedBy_snoc.
Qed.

Lemma content_top (k : nat) j :
  Z.of_nat k <= j - s ->
  Live.content reg magic md k j = upgraded this0 j.
Proof.
  intros Hj. unfold Live.content.
  by rewrite drop_ge by (rewrite length_take; lia).
Qed.

Lemma content_wrapped (k : nat) :
  Live.content reg magic md k s =
  Live.touchedBy reg s (take k (chainKeys s)) (value md).
Proof.
  unfold Live.content. rewrite Z.sub_diag. simpl.
  by rewrite (upgraded_at_version reg magic md s).
Qed.

Lemma live_resolved_metadata (k : nat) :
  Z.of_nat k <= 16 - s ->
  field_metadata (Live.resolved reg magic md k) =
  withValue md (Live.content reg magic md k s).
Proof.
  pose proof (index_range md) as Hr.
  induction k as [|k IH]; intros Hk.
  { simpl. by rewrite content_top, (upgraded_at_version reg magic md s),
      withValue_value by (done || lia). }
  destruct (decide (s + Z.of_nat k + 1 <= 15)) as [Hn|Hn].
  - rewrite (live_resolved_S_Ver k _ eq_refl Hn). simpl.
    rewrite IH by lia.
    rewrite index_withValue, value_withValue, withValue_withValue.
    by rewrite (content_S k (Ver (s + Z.of_nat k + 1)))
      by (lia || by apply chainKeys_lookup_Ver).
  - rewrite live_resolved_S_latest by lia. simpl.
    rewrite IH by lia.
    rewrite index_withValue, value_withValue, withValue_withValue.
    by rewrite (content_S k latest)
      by (lia || apply chainKeys_lookup_latest; lia).
Qed.

Lemma live_resolved_lookup_Ver (k : nat) j :
  Z.of_nat k <= 16 - s ->
  converted (Live.resolved reg magic md k) !! Ver j =
  if decide (s < j <= s + Z.of_nat k /\ j <= 15)
  then Some (Live.content reg magic md k j) else None.
Proof.
  pose proof (index_range md) as Hr.
  induction k as [|k IH]; intros Hk.
  { simpl. rewrite lookup_empty. case_decide; [lia | done]. }
  destruct (decide (s + Z.of_nat k + 1 <= 15)) as [Hn|Hn].
  - rewrite (live_resolved_S_Ver k _ eq_refl Hn). simpl.
    rewrite live_resolved_index.
    destruct (decide (j = s + Z.of_nat k + 1)) as [->|Hne].
    + rewrite lookup_insert_eq, decide_True by lia.
      rewrite content_top by lia.
      f_equal. symmetry. apply (upgraded_step this0). simpl. lia.
    + rewrite lookup_insert_ne by congruence.
      rewrite lookup_fmap, IH by lia.
      destruct (decide (s < j <= s + Z.of_nat k /\ j <= 15)) as [Hin|Hout].
      * rewrite decide_True by lia. simpl. f_equal. symmetry.
        apply content_S; [by apply chainKeys_lookup_Ver | lia].
      * by rewrite decide_False by lia.
  - rewrite live_resolved_S_latest by lia. simpl.
    rewrite live_resolved_index.
    rewrite lookup_insert_ne by done.
    rewrite lookup_fmap, IH by lia.
    destruct (decide (s < j <= s + Z.of_nat k /\ j <= 15)) as [Hin|Hout].
    + rewrite decide_True by lia. simpl. f_equal. symmetry.
      apply content_S; [apply chainKeys_lookup_latest; lia | lia].
    + by rewrite decide_False by lia.
Qed.

Lemma live_resolved_lookup_latest (k : nat) :
  Z.of_nat k <= 16 - s ->
  converted (Live.resolved reg magic md k) !! latest =
  if decide (16 - s <= Z.of_nat k)
  then Some (toLatest reg (upgraded this0 15) s) else None.
Proof.
  pose proof (index_range md) as Hr.
  induction k as [|k IH]; intros Hk.
  { simpl. rewrite lookup_empty. case_decide; [lia | done]. }
  destruct (decide (s + Z.of_nat k + 1 <= 15)) as [Hn|Hn].
  - rewrite (live_resolved_S_Ver k _ eq_refl Hn). simpl.
    rewrite lookup_insert_ne by done.
    rewrite lookup_fmap, IH by lia.
    by rewrite !decide_False by lia.
  - rewrite live_resolved_S_latest by lia. simpl.
    rewrite lookup_insert_eq, live_resolved_index.
    by rewrite decide_True by lia.
Qed.

Lemma live_resolved_keys (k : nat) :
  Z.of_nat k <= 16 - s ->
  call_key <$> upgradeCalls (Live.resolved reg magic md k) =
  take k (chainKeys s).
Proof.
  induction k as [|k IH]; intros Hk; [done|].
  pose proof (index_range md) as Hr.
  destruct (decide (s + Z.of_nat k + 1 <= 15)) as [Hn|Hn].
  - rewrite (live_resolved_S_Ver k _ eq_refl Hn). simpl.
    rewrite fmap_app, IH by lia. simpl.
    symmetry. by apply take_S_r, chainKeys_lookup_Ver.
  - rewrite live_resolved_S_latest by lia. simpl.
    rewrite fmap_app, IH by lia. simpl.
    symmetry. apply take_S_r, chainKeys_lookup_latest; lia.
Qed.

(** *** The getters on these states *)

Lemma live_asV9_resolves : Live.getter_resolves reg magic md 9 asV9.
Proof.
  intros k Hk Hs. pose proof (index_range md) as Hr.
  destruct (asV9_ok (Live.resolved reg magic md k)) as [_ Hok].
  rewrite live_resolved_index in Hok.
  destruct Hok as (x & this' & -> & Hpost); [done|].
  rewrite (post_unchanged _ _ _ _ Hpost)
    by (left; rewrite live_resolved_index; lia).
  rewrite (post_native _ _ _ _ Hpost) by (rewrite live_resolved_index; lia).
  replace (Z.to_nat (9 - s)) with O by lia. rewrite Nat.max_0_r.
  rewrite live_resolved_metadata, value_withValue by done.
  by replace 9 with s by lia.
Qed.

Lemma live_getVersion_resolves tbl n :
  10 <= n <= 15 ->
  Live.getter_resolves reg magic md (n - 1) (tbl (asV (n - 1))) ->
  Live.getter_resolves reg magic md n
    (Live.getVersion tbl (Ver n) (registeredStep n)).
Proof.
  intros Hn Hprev k Hk Hs.
  destruct (decide (s = n)) as [Heq|Hne].
  { rewrite live_getVersion_current by (by rewrite live_resolved_index).
    replace (Z.to_nat (n - s)) with O by lia. rewrite Nat.max_0_r.
    rewrite live_resolved_metadata, value_withValue by done.
    by rewrite Heq. }
  pose proof (live_resolved_lookup_Ver k n Hk) as Hlook.
  destruct (decide (s < n <= s + Z.of_nat k /\ n <= 15)) as [Hin|Hout].
  { rewrite (live_getVersion_hit _ _ _ _ (Live.content reg magic md k n));
      [|rewrite live_resolved_index; lia|done].
    by rewrite Nat.max_l by lia. }
  rewrite live_getVersion_miss; [|rewrite live_resolved_index; lia|done].
  rewrite (Hprev k) by lia.
  replace (k `max` Z.to_nat (n - 1 - s))%nat with (Z.to_nat (n - 1 - s)) by lia.
  replace (k `max` Z.to_nat (n - s))%nat with (S (Z.to_nat (n - 1 - s))) by lia.
  rewrite (content_top (Z.to_nat (n - 1 - s)) (n - 1)) by lia.
  rewrite (content_top (S (Z.to_nat (n - 1 - s))) n) by lia.
  rewrite (live_resolved_S_Ver _ n) by lia.
  rewrite live_resolved_index, live_resolved_registry.
  by rewrite <- (upgraded_step this0) by (simpl; lia).
Qed.

Lemma live_this_resolves n :
  9 <= n <= 15 -> Live.getter_resolves reg magic md n (Live.this_ (asV n)).
Proof.
  intros Hn.
  assert (Live.getter_resolves reg magic md 9 asV9) as H9
    by apply live_asV9_resolves.
  assert (Live.getter_resolves reg magic md 10 Live.asV10) as H10
    by (apply (live_getVersion_resolves _ 10); [lia | exact H9]).
  assert (Live.getter_resolves reg magic md 11 Live.asV11) as H11
    by (apply (live_getVersion_resolves _ 11); [lia | exact H10]).
  assert (Live.getter_resolves reg magic md 12 Live.asV12) as H12
    by (apply (live_getVersion_resolves _ 12); [lia | exact H11]).
  assert (Live.getter_resolves reg magic md 13 Live.asV13) as H13
    by (apply (live_getVersion_resolves _ 13); [lia | exact H12]).
  assert (Live.getter_resolves reg magic md 14 Live.asV14) as H14
    by (apply (live_getVersion_resolves _ 14); [lia | exact H13]).
  assert (Live.getter_resolves reg magic md 15 Live.asV15) as H15
    by (apply (live_getVersion_resolves _ 15); [lia | exact H14]).
  assert (n = 9 \/ n = 10 \/ n = 11 \/ n = 12 \/ n = 13 \/ n = 14 \/ n = 15)
    as Hcases by lia.
  by destruct Hcases as [->|[->|[->|[->|[->|[->| ->]]]]]].
Qed.

Lemma live_asLatest_resolves (k : nat) :
  Z.of_nat k <= 16 - s ->
  Live.asLatest (Live.resolved reg magic md k) =
  (inr (toLatest reg (upgraded this0 15) s),
   Live.resolved reg magic md (Z.to_nat (16 - s))).
Proof.
  intros Hk. pose proof (index_range md) as Hr.
  pose proof (live_resolved_lookup_latest k Hk) as Hlook. unfold Live.asLatest.
  destruct (decide (16 - s <= Z.of_nat k)) as [Hin|Hout].
  { rewrite (live_getLatest_hit _ _ _ _ Hlook).
    by replace (Z.to_nat (16 - s)) with k by lia. }
  rewrite live_getLatest_miss by done.
  change (only 15 Live.asV15 (asV LATEST_VERSION)) with (Live.this_ (asV 15)).
  rewrite (live_this_resolves 15) by lia.
  replace (k `max` Z.to_nat (15 - s))%nat with (Z.to_nat (15 - s)) by lia.
  replace (Z.to_nat (16 - s)) with (S (Z.to_nat (15 - s))) by lia.
  rewrite content_top by lia.
  rewrite live_resolved_S_latest by lia.
  by rewrite live_resolved_index, live_resolved_registry.
Qed.

Lemma live_asCallsOnly_state this :
  snd (Live.asCallsOnly this) = snd (Live.asLatest this).
Proof.
  unfold Live.asCallsOnly, bind, get_registry, magicNumber, lift, ret.
  destruct (Live.asLatest this) as [[e|x] this']; [done|]. simpl.
  by destruct (createMetadataAll (toCallsOnly (registry this) x)
                 TO_CALLS_VERSION).
Qed.

Lemma live_getUniqTypes_state throwError this :
  snd (Live.getUniqTypes throwError this) = snd (Live.asLatest this).
Proof.
  unfold Live.getUniqTypes, bind, get_registry, lift.
  by destruct (Live.asLatest this) as [[e|x] this'].
Qed.

Lemma live_toJSON_state this :
  snd (Live.toJSON this) = snd (Live.asLatest this).
Proof.
  unfold Live.toJSON, bind, super_toJSON.
  by destruct (Live.asLatest this) as [[e|x] this'].
Qed.

Lemma live_perform_resolved c (k : nat) :
  Z.of_nat k <= 16 - s ->
  Live.perform c (Live.resolved reg magic md k) =
  Live.resolved reg magic md (k `max` demand s c).
Proof.
  intros Hk. pose proof (index_range md) as Hr.
  destruct c as [n| | | | | |]; cbn [Live.perform demand];
    rewrite ?live_asCallsOnly_state, ?live_getUniqTypes_state,
      ?live_toJSON_state, ?live_asLatest_resolves by done;
    cbn [snd]; rewrite ?Nat.max_0_r; try done; try (f_equal; lia).
  destruct (Z.leb_spec s n) as [Hsn|Hsn];
    [destruct (Z.leb_spec n 15) as [Hn|Hn]|]; cbn [andb].
  - by rewrite (live_this_resolves n) by lia.
  - rewrite Nat.max_0_r. by rewrite live_getter_absent by lia.
  - rewrite Nat.max_0_r.
    destruct (decide (9 <= n)) as [H9|H9];
      [|by rewrite live_getter_absent by lia].
    by rewrite live_getter_throw by (rewrite ?live_resolved_index; lia).
Qed.

Lemma live_after_snoc calls c this :
  Live.after (calls ++ [c]) this = Live.perform c (Live.after calls this).
Proof. unfold Live.after. by rewrite foldl_app. Qed.

Lemma live_after_resolved calls :
  Live.after calls this0 =
  Live.resolved reg magic md (max_list_with (demand s) calls).
Proof.
  induction calls as [|c calls IH] using rev_ind; [done|].
  rewrite live_after_snoc, IH, live_perform_resolved
    by apply max_demand_bound.
  by rewrite max_list_with_snoc.
Qed.

End LiveResolved.

(** ** The claims that depend on the values being live *)
Section LiveClaims.

Context {imports : Imports} {effects : Effects}.

Variables (reg : Registry) (magic : MagicNumber) (md : MetadataAll MetaMapped).

#[local] Abbreviation this0 := (new_MetadataVersioned reg magic md).
#[local] Abbreviation s := (index md).

Lemma live_resolved_is_Some_mono (k k' : nat) key :
  (k <= k')%nat -> Z.of_nat k' <= 16 - s ->
  is_Some (converted (Live.resolved reg magic md k) !! key) ->
  is_Some (converted (Live.resolved reg magic md k') !! key).
Proof.
  intros Hkk Hk'. destruct key as [j|].
  - rewrite !live_resolved_lookup_Ver by lia.
    destruct (decide (s < j <= s + Z.of_nat k /\ j <= 15)) as [Hin|Hout];
      [|by intros [? [=]]].
    rewrite decide_True by lia. eauto.
  - rewrite !live_resolved_lookup_latest by lia.
    destruct (decide (16 - s <= Z.of_nat k)) as [Hin|Hout];
      [|by intros [? [=]]].
    rewrite decide_True by lia. eauto.
Qed.

Lemma live_resolved_key_range (k : nat) key :
  Z.of_nat k <= 16 - s ->
  is_Some (converted (Live.resolved reg magic md k) !! key) ->
  key = latest \/ exists j, key = Ver j /\ s < j <= 15.
Proof.
  intros Hk. destruct key as [j|]; [|by left].
  rewrite live_resolved_lookup_Ver by lia.
  case_decide; [|by intros [? [=]]].
  intros _. right. exists j. split; [done | lia].
Qed.

(** C7 ([toJSON] serialises what [asLatest] leaves).  After any history of
    calls on any record, whatever version it wraps, [toJSON] first runs
    [asLatest], which returns, and then hands over to the struct's own
    [toJSON] in the state so reached.  By then every upgrade function of the
    chain has been called, [toLatest] last, and what is serialised is the
    magic number and the wrapped union with its value as all of them, in this
    order, have left it. *)
Theorem C7_toJSON_serialises_after_latest calls :
  exists x this',
    Live.asLatest (Live.after calls this0) = (inr x, this') /\
    Live.toJSON (Live.after calls this0) = super_toJSON this' /\
    Live.toJSON (Live.after calls this0) =
    (inr (Struct_toJSON magic
            (withValue md (Live.touchedBy reg s (chainKeys s) (value md)))),
     this') /\
    x = toLatest reg
          (applySteps reg s (Z.to_nat (LATEST_VERSION - s)) s (value md)) s /\
    converted this' !! latest = Some x /\
    call_key <$> upgradeCalls this' = chainKeys s.
Proof.
  pose proof (index_range md) as Hr.
  pose proof (max_demand_bound md calls) as HK.
  rewrite live_after_resolved.
  set (K := max_list_with (demand s) calls) in *.
  set (full := Z.to_nat (16 - s)).
  assert (Z.of_nat full <= 16 - s) as Hfull by (unfold full; lia).
  assert (take full (chainKeys s) = chainKeys s) as Htake.
  { apply take_ge. rewrite length_chainKeys by done. unfold full. lia. }
  exists (toLatest reg (upgraded this0 15) s), (Live.resolved reg magic md full).
  split; [by apply live_asLatest_resolves|].
  assert (Live.toJSON (Live.resolved reg magic md K) =
          super_toJSON (Live.resolved reg magic md full)) as Hjson.
  { unfold Live.toJSON, bind. by rewrite live_asLatest_resolves. }
  split; [done|]. split.
  { rewrite Hjson. unfold super_toJSON.
    rewrite live_resolved_magicNumber, live_resolved_metadata by done.
    by rewrite content_wrapped, Htake. }
  split; [done|]. split.
  { rewrite live_resolved_lookup_latest by done.
    by rewrite decide_True by (unfold full; lia). }
  by rewrite live_resolved_keys, Htake.
Qed.

(** C9 (what the getters leave unchanged), as amended.  Over any sequence of
    calls on any record, the tag of the wrapped union, hence [version], the
    magic number and the registry stay what they were, and [#converted]
    loses no key.  The value of the wrapped union is not out of reach: it is
    the original value as the upgrade functions called so far have left it,
    in the order of their calls. *)
Theorem C9_tag_and_magic_unchanged calls :
  index (field_metadata (Live.after calls this0)) = index md /\
  version (Live.after calls this0) =
  (inr (index md), Live.after calls this0) /\
  field_magicNumber (Live.after calls this0) = magic /\
  magicNumber (Live.after calls this0) = (inr magic, Live.after calls this0) /\
  registry (Live.after calls this0) = reg /\
  field_metadata (Live.after calls this0) =
  withValue md
    (Live.touchedBy reg s
       (call_key <$> upgradeCalls (Live.after calls this0)) (value md)) /\
  (forall calls' key,
     is_Some (converted (Live.after calls this0) !! key) ->
     is_Some (converted (Live.after (calls ++ calls') this0) !! key)).
Proof.
  pose proof (index_range md) as Hr.
  pose proof (max_demand_bound md calls) as HK.
  rewrite live_after_resolved.
  set (K := max_list_with (demand s) calls) in *.
  split; [apply live_resolved_index|].
  split.
  { unfold version, bind, metadata, ret. by rewrite live_resolved_index. }
  split; [apply live_resolved_magicNumber|].
  split; [unfold magicNumber; by rewrite live_resolved_magicNumber|].
  split; [apply live_resolved_registry|].
  split.
  { by rewrite live_resolved_metadata, content_wrapped, live_resolved_keys. }
  intros calls' key. rewrite live_after_resolved.
  apply live_resolved_is_Some_mono; [|apply max_demand_bound].
  apply max_list_with_incl. intros c Hc. apply elem_of_app. by left.
Qed.

(** C10 (forcing), as amended.  After any history of calls on a record
    wrapping version [s], each of [asCallsOnly], [toJSON] and [getUniqTypes]
    leaves the record in the state [asLatest] leaves it in: [#converted] then
    holds [latest] and every version above [s] up to 15, has lost no key and
    holds no other key; the tag of the wrapped union, hence [version], and
    the magic number are as before. *)
Theorem C10_derived_views_force_latest calls c :
  c = Get_asCallsOnly \/ c = Call_toJSON \/
    (exists throwError, c = Call_getUniqTypes throwError) ->
  Live.perform c (Live.after calls this0) =
  snd (Live.asLatest (Live.after calls this0)) /\
  is_Some (converted (Live.perform c (Live.after calls this0)) !! latest) /\
  (forall j, index md < j <= 15 ->
     is_Some (converted (Live.perform c (Live.after calls this0)) !! Ver j)) /\
  (forall key,
     is_Some (converted (Live.after calls this0) !! key) ->
     is_Some (converted (Live.perform c (Live.after calls this0)) !! key)) /\
  (forall key,
     is_Some (converted (Live.perform c (Live.after calls this0)) !! key) ->
     key = latest \/ exists j, key = Ver j /\ index md < j <= 15) /\
  index (field_metadata (Live.perform c (Live.after calls this0))) =
  index md /\
  version (Live.perform c (Live.after calls this0)) =
  (inr (index md), Live.perform c (Live.after calls this0)) /\
  field_magicNumber (Live.perform c (Live.after calls this0)) = magic.
Proof.
  intros Hc. pose proof (index_range md) as Hr.
  pose proof (max_demand_bound md calls) as HK.
  assert (Live.perform c (Live.after calls this0) =
          snd (Live.asLatest (Live.after calls this0))) as Hperform.
  { destruct Hc as [->|[->|[b ->]]]; simpl;
      auto using live_asCallsOnly_state, live_toJSON_state,
        live_getUniqTypes_state. }
  split; [done|]. rewrite Hperform, live_after_resolved.
  set (K := max_list_with (demand s) calls) in *.
  rewrite live_asLatest_resolves by done. cbn [snd].
  set (full := Z.to_nat (16 - s)).
  assert (Z.of_nat full <= 16 - s) as Hfull by (unfold full; lia).
  split.
  { rewrite live_resolved_lookup_latest by done.
    rewrite decide_True by (unfold full; lia). eauto. }
  split.
  { intros j Hj. rewrite live_resolved_lookup_Ver by done.
    rewrite decide_True by (unfold full; lia). eauto. }
  split.
  { intros key. apply live_resolved_is_Some_mono; [unfold full; lia | done]. }
  split; [intros key; by apply live_resolved_key_range|].
  split; [apply live_resolved_index|].
  split; [|apply live_resolved_magicNumber].
  unfold version, bind, metadata, ret. by rewrite live_resolved_index.
Qed.

End LiveClaims.

(** Where the upgrade functions leave every value as it is, the wrapped union
    is never changed. *)
Lemma touchedBy_noEffects {imports : Imports} reg mv keys x :
  Live.touchedBy (effects := noEffects) reg mv keys x = x.
Proof. induction keys as [|key keys IH]; [done | exact IH]. Qed.

Lemma payload_unchanged_without_effects {imports : Imports} reg magic md calls :
  field_metadata
    (Live.after (effects := noEffects) calls
       (new_MetadataVersioned reg magic md)) = md.
Proof.
  rewrite live_after_resolved, live_resolved_metadata
    by apply max_demand_bound.
  by rewrite content_wrapped, touchedBy_noEffects, withValue_value.
Qed.

(** With such upgrade functions the record goes through the very states of
    the first part, whatever the calls. *)
Lemma filled_noEffects {imports : Imports} key f reg prev this :
  Live.filled (effects := noEffects) key f reg prev this =
  filled key f reg prev this.
Proof.
  unfold Live.filled, filled. simpl. rewrite withValue_value. f_equal.
  f_equal. apply map_eq. intros k. rewrite lookup_fmap.
  by destruct (converted this !! k).
Qed.

Lemma resolved_noEffects {imports : Imports} reg magic md k :
  Live.resolved (effects := noEffects) reg magic md k =
  resolved reg magic md k.
Proof.
  induction k as [|k IH]; [done|].
  destruct (decide (index md + Z.of_nat k + 1 <= 15)) as [Hn|Hn].
  - rewrite (live_resolved_S_Ver reg magic md k _ eq_refl Hn).
    rewrite (resolved_S_Ver reg magic md k _ eq_refl Hn).
    by rewrite filled_noEffects, IH.
  - rewrite live_resolved_S_latest, resolved_S_latest by lia.
    by rewrite filled_noEffects, IH.
Qed.

Lemma after_noEffects {imports : Imports} reg magic md calls :
  Live.after (effects := noEffects) calls (new_MetadataVersioned reg magic md) =
  after calls (new_MetadataVersioned reg magic md).
Proof. by rewrite live_after_resolved, after_resolved, resolved_noEffects. Qed.

(** ** The live claims on the sample records *)

(** On [sampleV12] with [sampleEffects], serialising before [asLatest] has
    run and after it do not give the same. *)
Example toJSON_order_matters :
  fst (Live.toJSON (effects := sampleEffects) sampleV12) <>
  fst (super_toJSON sampleV12).
Proof. vm_compute. intros [=]. Qed.

Lemma C9_counterexample_payload_touched :
  fst (Live.this_ (effects := sampleEffects) (asV 13) sampleV12) =
  inr [12; 13; 12] /\
  field_metadata
    (snd (Live.this_ (effects := sampleEffects) (asV 13) sampleV12)) =
  V12 [12; -13] /\
  field_metadata
    (Live.after (effects := sampleEffects) [Get_asV 13] sampleV12) <>
  field_metadata sampleV12.
Proof.
  split; [reflexivity|]. split; [reflexivity|]. vm_compute. intros [=].
Qed.

Lemma C9_tag_and_magic_unchanged_witness :
  is_Some
    (converted (Live.after (effects := sampleEffects) [Get_asV 13] sampleV12)
     !! Ver 13) /\
  is_Some
    (converted
       (Live.after (effects := sampleEffects)
          ([Get_asV 13] ++ [Get_asLatest]) sampleV12)
     !! Ver 13) /\
  index
    (field_metadata
       (Live.after (effects := sampleEffects) [Get_asV 13] sampleV12)) = 12.
Proof.
  assert (is_Some
            (converted
               (Live.after (effects := sampleEffects) [Get_asV 13] sampleV12)
             !! Ver 13)) as Hin by (vm_compute; eauto).
  destruct (C9_tag_and_magic_unchanged (imports := sample)
              (effects := sampleEffects) tt 1635018093 (V12 [12])
              [Get_asV 13]) as (Hidx & _ & _ & _ & _ & _ & Hkeys).
  split; [exact Hin|]. split; [|exact Hidx].
  exact (Hkeys [Get_asLatest] (Ver 13) Hin).
Defined.

Lemma C10_counterexample_payload_touched :
  field_metadata (Live.perform (effects := sampleEffects) Call_toJSON sampleV12) =
  V12 [12; -13; -14; -15; -16] /\
  field_metadata (Live.perform (effects := sampleEffects) Call_toJSON sampleV12) <>
  field_metadata sampleV12.
Proof. split; [reflexivity|]. vm_compute. intros [=]. Qed.

Lemma C10_derived_views_force_latest_witness :
  (Call_toJSON = Get_asCallsOnly \/ Call_toJSON = Call_toJSON \/
     (exists throwError, Call_toJSON = Call_getUniqTypes throwError)) /\
  is_Some
    (converted
       (Live.perform (effects := sampleEffects) Call_toJSON
          (Live.after (effects := sampleEffects) [Get_asV 13] sampleV12))
     !! latest) /\
  index
    (field_metadata
       (Live.perform (effects := sampleEffects) Call_toJSON
          (Live.after (effects := sampleEffects) [Get_asV 13] sampleV12))) =
  12.
Proof.
  assert (Call_toJSON = Get_asCallsOnly \/ Call_toJSON = Call_toJSON \/
            (exists throwError, Call_toJSON = Call_getUniqTypes throwError))
    as Hc by (right; left; reflexivity).
  split; [exact Hc|].
  destruct (C10_derived_views_force_latest (imports := sample)
              (effects := sampleEffects) tt 1635018093 (V12 [12])
              [Get_asV 13] Call_toJSON Hc)
    as (_ & Hlatest & _ & _ & _ & Hidx & _).
  split; [exact Hlatest | exact Hidx].
Defined.
